(** * rofi-bookmarks: a shallow embedding of [rofi-bookmarks.py]

    The script lists the bookmarks of a Firefox profile for rofi.  Each
    function of the script is embedded below under its own name.  Python
    values are modelled as follows:

    - [str] is [string]; a nullable TEXT column is [option string];
    - SQLite integers (row ids, parent ids, type tags) are [Z];
    - [bytes] is [list byte];
    - a [dict] is a [gmap];
    - a call that may raise returns a [result]. *)

From Stdlib Require Import ZArith List String Ascii Bool Lia.
From Stdlib.Strings Require Import Byte.
From stdpp Require Import base option list gmap strings.

Open Scope string_scope.
Open Scope list_scope.
Open Scope Z_scope.

(** ** Python outcomes *)

Module Py.

(** The exceptions the script can meet. *)
Inductive exn : Type :=
| KeyError
| RuntimeError          (* StopIteration escaping a generator body, PEP 479 *)
| TypeError
| FileNotFoundError
| NotADirectoryError
| DatabaseError         (* any sqlite3.Error on a query *)
| ProgrammingError      (* sqlite3: a query on a closed connection *)
| SameFileError         (* shutil *)
| IsADirectoryError
| FileExistsError
| Exception (msg : string).   (* the script's own [raise Exception(msg)] *)

(** What running a piece of code gives: a value, a raised exception, or no
    answer at all (a loop that never ends). *)
Inductive result (A : Type) : Type :=
| Ok (a : A)
| Raise (e : exn)
| Diverge.

Arguments Ok {A} a.
Arguments Raise {A} e.
Arguments Diverge {A}.

Definition bind {A B} (r : result A) (k : A -> result B) : result B :=
  match r with
  | Ok a => k a
  | Raise e => Raise e
  | Diverge => Diverge
  end.

Definition returns {A} (r : result A) : Prop := exists a, r = Ok a.

End Py.

Export Py.

#[global] Instance result_ret : MRet Py.result := @Py.Ok.
#[global] Instance result_bind : MBind Py.result := fun A B k r => Py.bind r k.

(** ** Python strings *)

Module PyStr.

(** [c.lower()] on one character, ASCII letters only. *)
Definition lower_ascii (c : ascii) : ascii :=
  let n := nat_of_ascii c in
  if (65 <=? n)%nat && (n <=? 90)%nat then ascii_of_nat (n + 32)%nat else c.

(** [s.lower()] for a string of ASCII characters: the letters A to Z are
    folded and every other character (or byte of an encoded one) is kept. *)
Fixpoint lower (s : string) : string :=
  match s with
  | EmptyString => EmptyString
  | String c s' => String (lower_ascii c) (lower s')
  end.

(** [s.startswith(p)] *)
Fixpoint startswith (p s : string) : bool :=
  match p, s with
  | EmptyString, _ => true
  | String a p', String b s' => Ascii.eqb a b && startswith p' s'
  | String _ _, EmptyString => false
  end.

(** [needle in hay] *)
Fixpoint contains (needle hay : string) : bool :=
  startswith needle hay ||
  match hay with
  | EmptyString => false
  | String _ hay' => contains needle hay'
  end.

(** [s.split(c)] for a one-character separator: never empty, one more piece
    than there are separators. *)
Fixpoint split (c : ascii) (s : string) : list string :=
  match s with
  | EmptyString => [EmptyString]
  | String x s' =>
      if Ascii.eqb x c then EmptyString :: split c s'
      else match split c s' with
           | [] => [String x EmptyString]
           | w :: ws => String x w :: ws
           end
  end.

(** [sep.join(l)] on a list of strings. *)
Fixpoint join (sep : string) (l : list string) : string :=
  match l with
  | [] => EmptyString
  | [x] => x
  | x :: l' => x +:+ sep +:+ join sep l'
  end.

(** [bool(s)]: a string is true when it is not empty. *)
Definition truthy (s : string) : bool :=
  match s with EmptyString => false | _ => true end.

(** [c * n] *)
Fixpoint repeat_char (c : ascii) (n : nat) : string :=
  match n with
  | O => EmptyString
  | S n' => String c (repeat_char c n')
  end.

End PyStr.

(** ** The command line: from the [path] argument to the search path *)

(** [[i for i in args.path.split('/') if i != '']] *)
Definition search_path_of (path : string) : list string :=
  List.filter (fun i => negb (String.eqb i "")) (PyStr.split "/" path).

Example search_path_of_plain :
  search_path_of "Work/Dev" = ["Work"; "Dev"].
Proof. reflexivity. Qed.

Example search_path_of_slashes :
  search_path_of "//Work///Dev/" = ["Work"; "Dev"].
Proof. reflexivity. Qed.

Example split_empty : PyStr.split "/" "" = [""].
Proof. reflexivity. Qed.

(** *** Splitting and concatenation *)

Lemma split_nonempty c s : PyStr.split c s <> [].
Proof.
  destruct s as [|x s]; simpl; [discriminate|].
  destruct (Ascii.eqb x c); [discriminate|].
  destruct (PyStr.split c s); discriminate.
Qed.

Lemma split_app c p1 p2 :
  PyStr.split c (p1 +:+ String c p2) = PyStr.split c p1 ++ PyStr.split c p2.
Proof.
  induction p1 as [|x p1 IH]; simpl.
  - now rewrite Ascii.eqb_refl.
  - destruct (Ascii.eqb x c); [now rewrite IH|].
    rewrite IH. pose proof (split_nonempty c p1) as Hne.
    destruct (PyStr.split c p1); [congruence|reflexivity].
Qed.

Lemma search_path_of_app p1 p2 :
  search_path_of (p1 +:+ "/" +:+ p2) = search_path_of p1 ++ search_path_of p2.
Proof.
  unfold search_path_of.
  change ("/" +:+ p2) with (String "/" p2).
  now rewrite split_app, List.filter_app.
Qed.

Lemma search_path_of_empty : search_path_of "" = [].
Proof. reflexivity. Qed.

Lemma append_cons c (s t : string) : String c s +:+ t = String c (s +:+ t).
Proof. reflexivity. Qed.

Lemma append_empty_r (s : string) : s +:+ "" = s.
Proof.
  induction s as [|c s IH]; [reflexivity|].
  now rewrite append_cons, IH.
Qed.

Lemma search_path_of_leading p : search_path_of ("/" +:+ p) = search_path_of p.
Proof. apply (search_path_of_app "" p). Qed.

Lemma search_path_of_trailing p : search_path_of (p +:+ "/") = search_path_of p.
Proof.
  change (search_path_of (p +:+ "/"))
    with (search_path_of (p +:+ "/" +:+ "")).
  rewrite search_path_of_app, search_path_of_empty.
  apply app_nil_r.
Qed.

Lemma search_path_of_doubled p1 p2 :
  search_path_of (p1 +:+ "//" +:+ p2) = search_path_of (p1 +:+ "/" +:+ p2).
Proof.
  change ("//" +:+ p2) with ("/" +:+ ("/" +:+ p2)).
  now rewrite !search_path_of_app, search_path_of_leading.
Qed.

Lemma search_path_of_only_slashes n :
  search_path_of (PyStr.repeat_char "/" n) = [].
Proof.
  induction n as [|n IH]; [reflexivity|].
  change (PyStr.repeat_char "/" (S n)) with ("/" +:+ PyStr.repeat_char "/" n).
  now rewrite search_path_of_leading.
Qed.

(** ** Paths *)

(** A [pathlib.Path], kept as it was built: [Path(s)] or [p / s]. *)
Inductive path : Type :=
| Root (s : string)
| Join (p : path) (s : string).

Notation "p // s" := (Join p s) (at level 40, left associativity).

(** What pathlib keeps of the text [s] of a path: the root, which is ["/"]
    for a leading slash (["//"] for exactly two of them) and empty for a
    relative path, and the parts between the slashes, without the empty ones
    and the dots. *)
Definition path_root (s : string) : string :=
  if PyStr.startswith "/" s then
    if PyStr.startswith "//" s && negb (PyStr.startswith "///" s)
    then "//" else "/"
  else "".

Definition path_parts (s : string) : list string :=
  List.filter (fun x => negb (String.eqb x "") && negb (String.eqb x "."))
    (PyStr.split "/" s).

(** The root and the parts of [p]: in [p' / s] an absolute [s] replaces
    [p']. *)
Fixpoint anchor (p : path) : string :=
  match p with
  | Root s => path_root s
  | p' // s => if PyStr.startswith "/" s then path_root s else anchor p'
  end.

Fixpoint parts (p : path) : list string :=
  match p with
  | Root s => path_parts s
  | p' // s =>
      if PyStr.startswith "/" s then path_parts s
      else parts p' ++ path_parts s
  end.

(** [str(p)]: the root, then the parts joined with single slashes; a path
    without root and parts is written as a dot. *)
Definition str (p : path) : string :=
  match anchor p, parts p with
  | EmptyString, [] => "."
  | root, l => root +:+ PyStr.join "/" l
  end.

Example str_plain : str (Root "/home/u" // ".cache" // "rofi-bookmarks")
                    = "/home/u/.cache/rofi-bookmarks".
Proof. reflexivity. Qed.

Example str_trailing_slash : str (Root "/home/u/xdg/" // "rofi-bookmarks")
                             = "/home/u/xdg/rofi-bookmarks".
Proof. reflexivity. Qed.

Example str_absolute_operand : str (Root "/home/u" // "/mnt/profiles/abc")
                               = "/mnt/profiles/abc".
Proof. reflexivity. Qed.

Example str_root_home : str (Root "/" // ".cache") = "/.cache".
Proof. reflexivity. Qed.

Example str_empty : str (Root "") = ".".
Proof. reflexivity. Qed.

Fixpoint path_flat (p : path) : string * list string :=
  match p with
  | Root s => (s, [])
  | p' // s => let '(r, l) := path_flat p' in (r, s :: l)
  end.

Fixpoint path_unflat (r : string) (l : list string) : path :=
  match l with
  | [] => Root r
  | s :: l' => path_unflat r l' // s
  end.

Lemma path_unflat_flat p : path_unflat (path_flat p).1 (path_flat p).2 = p.
Proof.
  induction p as [s|p IH s]; simpl; [reflexivity|].
  destruct (path_flat p) as [r l]; simpl in *. now rewrite IH.
Qed.

#[global] Instance path_eq_dec : EqDecision path.
Proof. solve_decision. Defined.

#[global] Instance path_countable : Countable path.
Proof.
  apply (inj_countable' path_flat (fun x => path_unflat x.1 x.2)).
  apply path_unflat_flat.
Defined.

(** [p.parent] *)
Definition parent (p : path) : path :=
  match p with
  | Root s => Root s
  | p' // _ => p'
  end.

(** ** Profile locator *)

(** One entry of [firefox_dir.glob('*')], with what the script asks of it. *)
Record entry : Type := {
  name : string;            (* path.name *)
  is_dir : bool;            (* path.is_dir() *)
  has_places : bool;        (* (path / 'places.sqlite').exists() *)
  has_prefs : bool;         (* (path / 'prefs.js').exists() *)
  st_mtime : Z              (* path.stat().st_mtime, as an ordered value *)
}.

(** What [section[key]] gives: the value, [KeyError] when the section has no
    such key, or an exception that is not a [KeyError], such as configparser's
    [InterpolationSyntaxError] for a value like [50%off]. *)
Inductive field : Type :=
| Value (v : string)
| Missing
| Unreadable.

(** One section of the parsed [profiles.ini]: what [section['Name']] and
    [section['Path']] give. *)
Record section : Type := {
  Name : field;
  Path : field
}.

(** What the body of the loop over the sections does with one section:
    [return], go on with the next section (the name differs, or a [KeyError]
    was suppressed), or leave the loop through an exception that
    [suppress(KeyError)] lets through. *)
Inductive verdict : Type :=
| Found (rel : string)
| Next
| Stop.

Definition read_section (n : string) (s : section) : verdict :=
  match Name s with
  | Value v =>
      if String.eqb v n then
        match Path s with
        | Value rel => Found rel
        | Missing => Next
        | Unreadable => Stop
        end
      else Next
  | Missing => Next
  | Unreadable => Stop
  end.

(** [p / s]: an absolute [s] replaces [p]. *)
Definition joinpath (p : path) (s : string) : path :=
  if PyStr.startswith "/" s then Root s else p // s.

(** Every character of [s] is an ASCII character. *)
Definition is_ascii (s : string) : bool :=
  forallb (fun c => (nat_of_ascii c <? 128)%nat) (list_ascii_of_string s).

(** [s.lower()]: on a string of ASCII characters the letters A to Z are
    folded; on any other string the answer is Python's, [unicode_lower]. *)
Definition py_lower (unicode_lower : string -> string) (s : string) : string :=
  if is_ascii s then PyStr.lower s else unicode_lower s.

(** [max(x :: l, key=key)]: the first element with the greatest key. *)
Fixpoint max_by {A} (key : A -> Z) (x : A) (l : list A) : A :=
  match l with
  | [] => x
  | y :: l' => max_by key (if key x <? key y then y else x) l'
  end.

(** ['default' in p.name.lower()].  Folding the ASCII letters is all that
    matters here: no character outside ASCII lowers to a letter of
    "default". *)
Definition mentions_default (p : entry) : bool :=
  PyStr.contains "default" (PyStr.lower (name p)).

Definition named_exactly (n : string) (p : entry) : bool :=
  String.eqb (name p) n.

(** [n.lower() in p.name.lower()] *)
Definition named_like (unicode_lower : string -> string) (n : string)
    (p : entry) : bool :=
  PyStr.contains (py_lower unicode_lower n) (py_lower unicode_lower (name p)).

Section ProfileLocator.

(** [Path.home()] *)
Variable home : path.

(** [str.lower] on the strings that hold other characters than ASCII ones. *)
Variable unicode_lower : string -> string.

Definition firefox_dir : path :=
  home // ".var/app/org.mozilla.firefox/.mozilla/firefox".

Definition profile_path (p : entry) : path := firefox_dir // name p.

Definition find_profile_directories (listing : list entry) : list entry :=
  List.filter
    (fun p => is_dir p && negb (PyStr.startswith "." (name p))
              && (has_places p || has_prefs p))
    listing.

Definition default_profile_path (listing : list entry) : result path :=
  match find_profile_directories listing with
  | [] => Raise (Exception "No Firefox profiles found in directory structure")
  | p0 :: rest =>
      match List.find mentions_default (p0 :: rest) with
      | Some p => Ok (profile_path p)
      | None => Ok (profile_path (max_by st_mtime p0 rest))
      end
  end.

(** The [for section in profiles.values()] loop inside the [try]: the path of
    the first section whose [Name] is the query and that has a [Path]; a
    missing key is suppressed and the loop goes on; any other exception
    leaves the loop, and the bare [except] swallows it. *)
Fixpoint registry_lookup (n : string) (sections : list section) : option path :=
  match sections with
  | [] => None
  | s :: rest =>
      match read_section n s with
      | Found rel => Some (joinpath firefox_dir rel)
      | Next => registry_lookup n rest
      | Stop => None
      end
  end.

(** [registry] is what [ConfigParser().read(firefox_dir / 'profiles.ini')]
    leaves to iterate over, [None] when reading raised (the bare [except]
    then swallows it). *)
Definition path_from_name (listing : list entry)
    (registry : option (list section)) (n : string) : result path :=
  let profile_dirs := find_profile_directories listing in
  match List.find (named_exactly n) profile_dirs with
  | Some p => Ok (profile_path p)
  | None =>
      match List.find (named_like unicode_lower n) profile_dirs with
      | Some p => Ok (profile_path p)
      | None =>
          match registry ≫= registry_lookup n with
          | Some p => Ok p
          | None =>
              Raise (Exception ("No profile with name '" +:+ n +:+ "' found"))
          end
      end
  end.

End ProfileLocator.

Definition work_profile : entry :=
  {| name := "work.default-release"; is_dir := true; has_places := true;
     has_prefs := true; st_mtime := 100 |}.

Definition test_profile : entry :=
  {| name := "test-profile"; is_dir := true; has_places := true;
     has_prefs := false; st_mtime := 200 |}.

Example default_profile_path_example :
  default_profile_path (Root "~") [work_profile; test_profile]
  = Ok (firefox_dir (Root "~") // "work.default-release").
Proof. reflexivity. Qed.

(** *** What "contains" means *)

(** [needle] occurs in [hay]. *)
Definition substring (needle hay : string) : Prop :=
  exists pre post, hay = pre +:+ needle +:+ post.

(** [needle] occurs in [hay] up to the case of ASCII letters: some piece of
    [hay] lowers to the lowered [needle]. *)
Definition substring_ci (needle hay : string) : Prop :=
  exists pre mid post,
    hay = pre +:+ mid +:+ post /\ PyStr.lower mid = PyStr.lower needle.

(** [x] is the first element of [l] that satisfies [P]. *)
Definition first_match {A} (P : A -> Prop) (l : list A) (x : A) : Prop :=
  exists pre post, l = pre ++ x :: post /\ P x /\ Forall (fun y => ~ P y) pre.

Lemma startswith_spec p s :
  PyStr.startswith p s = true <-> exists post, s = p +:+ post.
Proof.
  revert s. induction p as [|a p IH]; intros s; simpl.
  - split; [intros _; now exists s|reflexivity].
  - destruct s as [|b s].
    + split; [discriminate|intros [post H]; discriminate].
    + rewrite andb_true_iff, Ascii.eqb_eq, IH. split.
      * intros [-> [post ->]]. now exists post.
      * intros [post H]. rewrite append_cons in H. injection H as -> ->.
        split; [reflexivity|now exists post].
Qed.

Lemma contains_spec needle hay :
  PyStr.contains needle hay = true <-> substring needle hay.
Proof.
  unfold substring. induction hay as [|c hay IH].
  - simpl. rewrite orb_false_r, startswith_spec. split.
    + intros [post H]. now exists "", post.
    + intros [pre [post H]]. destruct pre as [|a pre]; [now exists post|].
      rewrite append_cons in H. discriminate.
  - change (PyStr.contains needle (String c hay))
      with (PyStr.startswith needle (String c hay) || PyStr.contains needle hay).
    rewrite orb_true_iff, startswith_spec, IH. split.
    + intros [[post H]|[pre [post H]]].
      * now exists "", post.
      * exists (String c pre), post. now rewrite append_cons, H.
    + intros [pre [post H]]. destruct pre as [|a pre].
      * left. now exists post.
      * right. rewrite append_cons in H. injection H as -> ->.
        now exists pre, post.
Qed.

Lemma lower_app a b : PyStr.lower (a +:+ b) = PyStr.lower a +:+ PyStr.lower b.
Proof.
  induction a as [|c a IH]; [reflexivity|].
  rewrite append_cons. simpl. now rewrite IH, append_cons.
Qed.

Lemma lower_app_inv h a' b' :
  PyStr.lower h = a' +:+ b' ->
  exists a b, h = a +:+ b /\ PyStr.lower a = a' /\ PyStr.lower b = b'.
Proof.
  revert h. induction a' as [|c a' IH]; intros h H.
  - now exists "", h.
  - rewrite append_cons in H. destruct h as [|x h]; [discriminate|].
    simpl in H. injection H as Hc H. destruct (IH _ H) as [a [b [-> [Ha Hb]]]].
    exists (String x a), b. rewrite append_cons. simpl. now rewrite Hc, Ha, Hb.
Qed.

Lemma contains_lower_spec needle hay :
  PyStr.contains (PyStr.lower needle) (PyStr.lower hay) = true
  <-> substring_ci needle hay.
Proof.
  rewrite contains_spec. unfold substring, substring_ci. split.
  - intros [pre' [post' H]].
    destruct (lower_app_inv _ _ _ H) as [pre [rest [-> [_ Hrest]]]].
    destruct (lower_app_inv _ _ _ Hrest) as [mid [post [-> [Hmid _]]]].
    now exists pre, mid, post.
  - intros [pre [mid [post [-> Hmid]]]].
    exists (PyStr.lower pre), (PyStr.lower post).
    now rewrite !lower_app, Hmid.
Qed.

Lemma find_first_match {A} (f : A -> bool) (l : list A) (x : A) :
  List.find f l = Some x -> first_match (fun y => f y = true) l x.
Proof.
  unfold first_match. induction l as [|y l IH]; simpl; [discriminate|].
  destruct (f y) eqn:Hy.
  - intros [= ->]. now exists [], l.
  - intros H. destruct (IH H) as [pre [post [-> [Hx Hpre]]]].
    exists (y :: pre), post. repeat split; [assumption|].
    constructor; [congruence|assumption].
Qed.

Lemma find_no_match {A} (f : A -> bool) (l : list A) :
  List.find f l = None -> Forall (fun y => f y <> true) l.
Proof.
  induction l as [|y l IH]; simpl; [constructor|].
  destruct (f y) eqn:Hy; [discriminate|].
  intros H. constructor; [congruence|auto].
Qed.

Lemma max_by_spec {A} (key : A -> Z) (x : A) (l : list A) :
  exists pre post,
    x :: l = pre ++ max_by key x l :: post
    /\ Forall (fun y => key y < key (max_by key x l)) pre
    /\ Forall (fun y => key y <= key (max_by key x l)) post.
Proof.
  revert x. induction l as [|y l IH]; intros x; simpl.
  - exists [], []. repeat split; constructor.
  - destruct (Z.ltb_spec (key x) (key y)) as [Hlt|Hge].
    + destruct (IH y) as [pre [post [E [Hpre Hpost]]]].
      destruct pre as [|z pre]; simpl in E.
      * injection E as E1 E2. subst post. exists [x], l.
        rewrite <- E1 in Hpost |- *.
        repeat split; [|assumption].
        constructor; [lia|constructor].
      * injection E as E1 E2. subst z. exists (x :: y :: pre), post.
        simpl. rewrite <- E2. repeat split; [|assumption].
        inversion Hpre; subst. constructor; [lia|]. now constructor.
    + destruct (IH x) as [pre [post [E [Hpre Hpost]]]].
      destruct pre as [|z pre]; simpl in E.
      * injection E as E1 E2. subst post. exists [], (y :: l).
        rewrite <- E1 in Hpost |- *.
        repeat split; [constructor|].
        constructor; [lia|assumption].
      * injection E as E1 E2. subst z. exists (x :: y :: pre), post.
        simpl. rewrite <- E2. repeat split; [|assumption].
        inversion Hpre; subst. constructor; [assumption|].
        constructor; [lia|assumption].
Qed.

Lemma mentions_default_spec p :
  mentions_default p = true <-> substring_ci "default" (name p).
Proof. apply (contains_lower_spec "default"). Qed.




Lemma first_match_iff {A} (P Q : A -> Prop) l x :
  (forall y, P y <-> Q y) -> first_match P l x -> first_match Q l x.
Proof.
  intros HPQ (pre & post & -> & Hx & Hpre).
  exists pre, post. repeat split; [now apply HPQ|].
  eapply Forall_impl; [exact Hpre|]. intros y Hy HQ. now apply Hy, HPQ.
Qed.

Lemma find_none_iff {A} (f : A -> bool) (P : A -> Prop) l :
  (forall y, f y = true <-> P y) ->
  List.find f l = None -> Forall (fun y => ~ P y) l.
Proof.
  intros HfP H. eapply Forall_impl; [exact (find_no_match f l H)|].
  intros y Hy HP. now apply Hy, HfP.
Qed.

(** C5: [default_profile_path] returns the first discovered directory whose
    name contains "default" up to case; when there is none, the discovered
    directory with the latest modification time (the first of them on a
    tie); and it raises exactly when nothing was discovered.  On
    ["work.default-release", "test-profile"] it returns the former. *)
Theorem default_profile_path_selects (home : path) (listing : list entry) :
  let dirs := find_profile_directories listing in
  let res := default_profile_path home listing in
  ((exists e, res = Raise e) <-> dirs = [])
  /\ ((exists p,
         first_match (fun q => substring_ci "default" (name q)) dirs p
         /\ res = Ok (profile_path home p))
      \/ (Forall (fun q => ~ substring_ci "default" (name q)) dirs
          /\ exists pre p post,
               dirs = pre ++ p :: post
               /\ Forall (fun q => st_mtime q < st_mtime p) pre
               /\ Forall (fun q => st_mtime q <= st_mtime p) post
               /\ res = Ok (profile_path home p))
      \/ (dirs = [] /\ res = Raise
            (Exception "No Firefox profiles found in directory structure")))
  /\ default_profile_path home [work_profile; test_profile]
     = Ok (firefox_dir home // "work.default-release").
Proof.
  cbv zeta. unfold default_profile_path.
  destruct (find_profile_directories listing) as [|p0 rest] eqn:Hdirs.
  - split; [|split; [|reflexivity]].
    + split; [reflexivity|]. intros _. eauto.
    + right; right. split; reflexivity.
  - destruct (List.find mentions_default (p0 :: rest)) as [p|] eqn:Hfind.
    + split; [|split; [|reflexivity]].
      * split; [intros [e He]; discriminate|discriminate].
      * left. exists p. split; [|reflexivity].
        eapply first_match_iff; [apply mentions_default_spec|].
        now apply find_first_match.
    + split; [|split; [|reflexivity]].
      * split; [intros [e He]; discriminate|discriminate].
      * right; left. split.
        -- eapply find_none_iff; [apply mentions_default_spec|exact Hfind].
        -- destruct (max_by_spec st_mtime p0 rest) as (pre & post & E & H1 & H2).
           exists pre, (max_by st_mtime p0 rest), post. repeat split; assumption.
Qed.













(** ** Bookmark rows and the parent index *)

(** One row of the query, [(id, parent, type, title, url)]: [title] is NULL
    for an untitled item, [url] is NULL when the LEFT JOIN finds no place. *)
Record row : Type := {
  r_id : Z;
  r_parent : Z;
  r_type : Z;
  r_title : option string;
  r_url : option string
}.

(** [{i: (title, parent) for i, parent, _, title, _ in conn_res}]: a later
    row with the same id replaces an earlier one. *)
Definition by_id_of (conn_res : list row) : gmap Z (option string * Z) :=
  fold_left (fun m r => <[r_id r := (r_title r, r_parent r)]> m) conn_res ∅.

(** [list(parent_generator(i))], the loop run for at most [fuel] rounds:
    [Diverge] stands for a loop that is still running after them. *)
Fixpoint parent_generator_fuel (by_id : gmap Z (option string * Z))
    (fuel : nat) (i : Z) : result (list (option string)) :=
  if i >? 1 then
    match fuel with
    | O => Diverge
    | S fuel' =>
        match by_id !! i with
        | None => Raise KeyError
        | Some (title, i') =>
            rest ← parent_generator_fuel by_id fuel' i'; Ok (title :: rest)
        end
    end
  else Ok [].

(** A walk that ends visits each key at most once, so it makes at most
    [size by_id] lookups that succeed and one that fails: more rounds than
    that never change the answer (see [parent_generator_fuel_enough]). *)
Definition parent_generator (by_id : gmap Z (option string * Z)) (i : Z)
  : result (list (option string)) :=
  parent_generator_fuel by_id (S (size by_id)) i.

(** [reversed(list(parent_generator(index)))] *)
Definition path_arr (by_id : gmap Z (option string * Z)) (index : Z)
  : result (list (option string)) :=
  l ← parent_generator by_id index; Ok (rev l).

(** *** The walk as a relation *)

(** [hops by_id i n]: the loop started at [i] leaves after [n] lookups,
    either because the id is at most 1 or because a key is missing. *)
Inductive hops (m : gmap Z (option string * Z)) : Z -> nat -> Prop :=
| hops_end i : i <= 1 -> hops m i 0
| hops_missing i : 1 < i -> m !! i = None -> hops m i 1
| hops_step i t p n :
    1 < i -> m !! i = Some (t, p) -> hops m p n -> hops m i (S n).

Lemma hops_functional m i n n' : hops m i n -> hops m i n' -> n = n'.
Proof.
  intros H. revert n'. induction H as [i Hi|i Hi Hm|i t p n Hi Hm H IH];
    intros n' H'; inversion H'; subst; try lia; try congruence.
  f_equal. apply IH. congruence.
Qed.

Lemma hops_delete m i j k :
  hops m j k -> (forall n, hops m i n -> (k < n)%nat) ->
  hops (delete i m) j k.
Proof.
  intros H. induction H as [j Hj|j Hj Hm|j t p k Hj Hm H IH]; intros Hlt.
  - now constructor.
  - constructor; [assumption|].
    rewrite lookup_delete. case_decide; [reflexivity|assumption].
  - assert (i <> j).
    { intros ->. specialize (Hlt (S k) (hops_step _ _ _ _ _ Hj Hm H)). lia. }
    econstructor; [assumption|rewrite lookup_delete_ne by assumption; eassumption|].
    apply IH. intros n Hn. specialize (Hlt n Hn). lia.
Qed.

Lemma hops_bound n : forall m i, hops m i n -> (n <= S (size m))%nat.
Proof.
  induction n as [|n IH]; intros m i H; [lia|].
  inversion H as [|? ? Hm|? t p ? Hi Hm Hp]; subst; [lia|].
  assert (Hdel : hops (delete i m) p n).
  { apply hops_delete; [assumption|].
    intros n' Hn'. rewrite (hops_functional _ _ _ _ Hn' H). lia. }
  apply IH in Hdel. rewrite map_size_delete_Some in Hdel by eauto.
  assert (size m <> 0%nat) by (eapply map_size_ne_0_lookup_2; eauto).
  lia.
Qed.

Lemma parent_generator_fuel_hops m fuel i :
  parent_generator_fuel m fuel i <> Diverge ->
  exists n, (n <= fuel)%nat /\ hops m i n.
Proof.
  revert i. induction fuel as [|fuel IH]; intros i; simpl.
  - destruct (Z.gtb_spec i 1) as [Hi|Hi]; [congruence|].
    intros _. exists 0%nat. split; [lia|now constructor].
  - destruct (Z.gtb_spec i 1) as [Hi|Hi].
    + destruct (m !! i) as [[t p]|] eqn:Hm.
      * intros H. destruct (IH p) as (n & Hn & Hh).
        { intros E. apply H. now rewrite E. }
        exists (S n). split; [lia|]. econstructor; eauto.
      * intros _. exists 1%nat. split; [lia|now constructor].
    + intros _. exists 0%nat. split; [lia|now constructor].
Qed.

Lemma parent_generator_fuel_stable m i n :
  hops m i n -> forall f1 f2, (n <= f1)%nat -> (n <= f2)%nat ->
  parent_generator_fuel m f1 i = parent_generator_fuel m f2 i
  /\ parent_generator_fuel m f1 i <> Diverge.
Proof.
  intros H. induction H as [i Hi|i Hi Hm|i t p n Hi Hm H IH]; intros f1 f2 H1 H2.
  - destruct f1, f2; simpl; destruct (Z.gtb_spec i 1); try lia;
      split; congruence.
  - destruct f1 as [|f1], f2 as [|f2]; try lia. simpl.
    destruct (Z.gtb_spec i 1); [|lia]. rewrite Hm. split; congruence.
  - destruct f1 as [|f1], f2 as [|f2]; try lia. simpl.
    destruct (Z.gtb_spec i 1); [|lia]. rewrite Hm.
    destruct (IH f1 f2) as [E Hnd]; [lia|lia|]. rewrite E. split; [reflexivity|].
    rewrite <- E. destruct (parent_generator_fuel m f1 p); simpl; congruence.
Qed.

(** The bound on the rounds loses nothing: when the loop gives an answer after
    any number of rounds, [parent_generator] gives that answer. *)
Lemma parent_generator_fuel_enough m fuel i :
  parent_generator_fuel m fuel i <> Diverge ->
  parent_generator m i = parent_generator_fuel m fuel i.
Proof.
  intros H. destruct (parent_generator_fuel_hops _ _ _ H) as (n & Hn & Hh).
  unfold parent_generator.
  apply (parent_generator_fuel_stable _ _ _ Hh); [|assumption].
  eapply hops_bound; eassumption.
Qed.

(** *** Trees without cycles *)

(** [chain by_id i l]: starting at [i] and following parent ids through rows
    that exist, the ids met are [l] (so [i] first, when [1 < i]) and the walk
    arrives at an id that is at most 1, the root.  Such an [i] lies in a tree
    without cycles, at depth [length l] below the root. *)
Inductive chain (m : gmap Z (option string * Z)) : Z -> list Z -> Prop :=
| chain_root i : i <= 1 -> chain m i []
| chain_step i t p l :
    1 < i -> m !! i = Some (t, p) -> chain m p l -> chain m i (i :: l).

Definition title_of (m : gmap Z (option string * Z)) (j : Z) : option string :=
  match m !! j with
  | Some (t, _) => t
  | None => None
  end.

Definition titles (m : gmap Z (option string * Z)) (l : list Z)
  : list (option string) :=
  List.map (title_of m) l.

(** The spec's ancestor path of the item whose walk is [l]: the titles of the
    folders above it, from the one below the root to the immediate parent. *)
Definition ancestor_titles (m : gmap Z (option string * Z)) (l : list Z)
  : list (option string) :=
  rev (titles m (tail l)).

Lemma chain_hops m i l : chain m i l -> hops m i (length l).
Proof.
  induction 1 as [i Hi|i t p l Hi Hm H IH]; simpl.
  - now constructor.
  - econstructor; eassumption.
Qed.

Lemma parent_generator_fuel_chain m i l :
  chain m i l -> forall fuel, (length l <= fuel)%nat ->
  parent_generator_fuel m fuel i = Ok (titles m l).
Proof.
  induction 1 as [i Hi|i t p l Hi Hm H IH]; intros fuel Hfuel.
  - destruct fuel; simpl; destruct (Z.gtb_spec i 1); try lia; reflexivity.
  - destruct fuel as [|fuel]; simpl in *; [lia|].
    destruct (Z.gtb_spec i 1); [|lia]. rewrite Hm, IH by lia.
    simpl. unfold title_of. now rewrite Hm.
Qed.

Lemma parent_generator_chain m i l :
  chain m i l -> parent_generator m i = Ok (titles m l).
Proof.
  intros H. apply parent_generator_fuel_chain; [assumption|].
  eapply hops_bound, chain_hops, H.
Qed.

Lemma path_arr_chain m i l :
  chain m i l -> path_arr m i = Ok (rev (titles m l)).
Proof.
  intros H. unfold path_arr. now rewrite (parent_generator_chain _ _ _ H).
Qed.

Lemma titles_length m l : length (titles m l) = length l.
Proof. apply List.length_map. Qed.

(** The tree of the spec's example: the root (id 1), the folder "Work"
    (id 10) below it and the bookmark "Site" (id 100) in that folder. *)
Definition example_rows : list row :=
  [ {| r_id := 1; r_parent := 0; r_type := 2; r_title := Some "";
       r_url := None |};
    {| r_id := 10; r_parent := 1; r_type := 2; r_title := Some "Work";
       r_url := None |};
    {| r_id := 100; r_parent := 10; r_type := 1; r_title := Some "Site";
       r_url := Some "https://example.com" |} ].

Definition example_by_id : gmap Z (option string * Z) := by_id_of example_rows.

Example example_chain : chain example_by_id 100 [100; 10].
Proof.
  eapply chain_step; [lia|reflexivity|].
  eapply chain_step; [lia|reflexivity|].
  apply chain_root. vm_compute. discriminate.
Qed.

(** C2, as it fails: in the spec's own example the path resolved for the
    bookmark "Site" is ["Work"; "Site"]: its last element is the bookmark's
    own title, not the immediate parent's, and it has as many elements as
    the bookmark's depth (2), not one less.  A walk also stops at an id below
    1: the item 7 whose parent is 0 resolves to its own title. *)
Lemma path_arr_ends_with_own_title :
  chain example_by_id 100 [100; 10]
  /\ path_arr example_by_id 100 = Ok [Some "Work"; Some "Site"]
  /\ ancestor_titles example_by_id [100; 10] = [Some "Work"]
  /\ path_arr example_by_id 100
     <> Ok (ancestor_titles example_by_id [100; 10])
  /\ length [Some "Work"; Some "Site"] <> (length [100; 10] - 1)%nat
  /\ path_arr {[ 7 := (Some "x", 0) ]} 7 = Ok [Some "x"].
Proof.
  split; [exact example_chain|].
  split; [reflexivity|]. split; [reflexivity|].
  split; [discriminate|]. split; [discriminate|reflexivity].
Qed.

(** C2, as the code has it: in a tree without cycles the resolution of any id
    returns (it does not raise and does not run forever); the walk stops as
    soon as the id is at most 1; the result lists the titles of the items met
    from the one just below the root down to the item itself, so the
    ancestor folder titles followed by the item's own title; and its length
    is the item's depth. *)
Theorem path_arr_resolves (m : gmap Z (option string * Z)) (i : Z)
    (l : list Z) (H : chain m i l) :
  path_arr m i = Ok (rev (titles m l))
  /\ length (rev (titles m l)) = length l
  /\ (1 < i -> rev (titles m l) = ancestor_titles m l ++ [title_of m i])
  /\ (i <= 1 -> path_arr m i = Ok [])
  /\ Forall (fun j => 1 < j) l.
Proof.
  split; [now apply path_arr_chain|].
  split; [now rewrite length_rev, titles_length|].
  split; [|split].
  - intros Hi. inversion H; subst; [lia|]. reflexivity.
  - intros Hi. apply (path_arr_chain m i []). now constructor.
  - induction H; constructor; assumption.
Qed.

Lemma path_arr_resolves_witness :
  path_arr example_by_id 100 = Ok (rev (titles example_by_id [100; 10]))
  /\ length (rev (titles example_by_id [100; 10])) = length [100; 10]
  /\ (1 < 100 -> rev (titles example_by_id [100; 10])
               = ancestor_titles example_by_id [100; 10]
                 ++ [title_of example_by_id 100])
  /\ (100 <= 1 -> path_arr example_by_id 100 = Ok [])
  /\ Forall (fun j => 1 < j) [100; 10].
Proof. exact (path_arr_resolves example_by_id 100 [100; 10] example_chain). Defined.

(** ** [hashlib.sha256] (FIPS 180-4) *)

Module SHA256.

Definition w32 (x : Z) : Z := x mod 2 ^ 32.

Definition rotr (n x : Z) : Z :=
  Z.lor (Z.shiftr x n) (w32 (Z.shiftl x (32 - n))).

Definition ch (e f g : Z) : Z :=
  Z.lxor (Z.land e f) (Z.land (Z.lxor e (2 ^ 32 - 1)) g).

Definition maj (a b c : Z) : Z :=
  Z.lxor (Z.lxor (Z.land a b) (Z.land a c)) (Z.land b c).

Definition xor3 (x y z : Z) : Z := Z.lxor (Z.lxor x y) z.

Definition Sigma0 (x : Z) : Z := xor3 (rotr 2 x) (rotr 13 x) (rotr 22 x).
Definition Sigma1 (x : Z) : Z := xor3 (rotr 6 x) (rotr 11 x) (rotr 25 x).
Definition sigma0 (x : Z) : Z := xor3 (rotr 7 x) (rotr 18 x) (Z.shiftr x 3).
Definition sigma1 (x : Z) : Z := xor3 (rotr 17 x) (rotr 19 x) (Z.shiftr x 10).

(** The constants are the leading fraction bits of the square and cube
    roots of the first primes; they are computed here, not listed. *)
Definition is_prime (n : Z) : bool :=
  (1 <? n)
  && forallb (fun d => negb (n mod d =? 0))
       (List.map Z.of_nat (seq 2 (Z.to_nat n - 2))).

Fixpoint primes_from (fuel count : nat) (n : Z) : list Z :=
  match fuel, count with
  | S fuel', S count' =>
      if is_prime n then n :: primes_from fuel' count' (n + 1)
      else primes_from fuel' count (n + 1)
  | _, _ => []
  end.

Definition primes (count : nat) : list Z := primes_from 400 count 2.

(** The greatest [r] in [lo, lo + 2^bits) with [r^3 <= n]. *)
Fixpoint cbrt_search (bits : nat) (lo n : Z) : Z :=
  match bits with
  | O => lo
  | S b =>
      let mid := lo + 2 ^ Z.of_nat b in
      if mid * mid * mid <=? n then cbrt_search b mid n else cbrt_search b lo n
  end.

Definition frac_sqrt (p : Z) : Z := w32 (Z.sqrt (p * 2 ^ 64)).
Definition frac_cbrt (p : Z) : Z := w32 (cbrt_search 40 0 (p * 2 ^ 96)).

Definition H0 : list Z := Eval vm_compute in List.map frac_sqrt (primes 8).
Definition K : list Z := Eval vm_compute in List.map frac_cbrt (primes 64).

(** Padding: a one bit, zeros up to 56 modulo 64, the bit length on 8 bytes. *)
Definition be_bytes (width : nat) (x : Z) : list Z :=
  List.map (fun k => (Z.shiftr x (8 * Z.of_nat k)) mod 256) (rev (seq 0 width)).

Definition pad (msg : list Z) : list Z :=
  let len := Z.of_nat (length msg) in
  let zeros := Z.to_nat ((55 - len) mod 64) in
  msg ++ [128] ++ repeat 0 zeros ++ be_bytes 8 (8 * len).

Fixpoint be_words (fuel : nat) (bs : list Z) : list Z :=
  match fuel, bs with
  | S fuel', b0 :: b1 :: b2 :: b3 :: rest =>
      (((b0 * 256 + b1) * 256 + b2) * 256 + b3) :: be_words fuel' rest
  | _, _ => []
  end.

(** The message schedule, most recent word first. *)
Fixpoint schedule (rounds : nat) (w : list Z) : list Z :=
  match rounds with
  | O => w
  | S r =>
      let x := w32 (sigma1 (nth 1 w 0) + nth 6 w 0
                    + sigma0 (nth 14 w 0) + nth 15 w 0) in
      schedule r (x :: w)
  end.

Definition round (st : list Z) (kw : Z * Z) : list Z :=
  match st with
  | [a; b; c; d; e; f; g; h] =>
      let t1 := h + Sigma1 e + ch e f g + fst kw + snd kw in
      let t2 := Sigma0 a + maj a b c in
      [w32 (t1 + t2); a; b; c; w32 (d + t1); e; f; g]
  | _ => st
  end.

Definition compress (h : list Z) (block : list Z) : list Z :=
  let w := rev (schedule 48 (rev block)) in
  let st := fold_left round (combine K w) h in
  List.map (fun p => w32 (fst p + snd p)) (combine h st).

Fixpoint blocks (fuel : nat) (ws : list Z) : list (list Z) :=
  match fuel, ws with
  | S fuel', _ :: _ => firstn 16 ws :: blocks fuel' (skipn 16 ws)
  | _, _ => []
  end.

Definition digest_words (msg : list Z) : list Z :=
  let bs := pad msg in
  let ws := be_words (length bs) bs in
  fold_left compress (blocks (length ws) ws) H0.

Definition hex_digit (d : Z) : ascii :=
  ascii_of_nat (Z.to_nat (if d <? 10 then 48 + d else 87 + d)).

Definition hex_word (x : Z) : string :=
  fold_right (fun k s => String (hex_digit ((Z.shiftr x (4 * Z.of_nat k)) mod 16)) s)
    "" (rev (seq 0 8)).

Definition byte_value (b : byte) : Z := Z.of_N (Byte.to_N b).

(** [sha256(data).hexdigest()] *)
Definition hexdigest (data : list byte) : string :=
  fold_right (fun w s => (hex_word w ++ s)%string) ""
    (digest_words (List.map byte_value data)).

End SHA256.

Example sha256_empty :
  SHA256.hexdigest []
  = "e3b0c44298fc1c149afbf4c8996fb92427ae41e4649b934ca495991b7852b855".
Proof. vm_compute. reflexivity. Qed.

Example sha256_abc :
  SHA256.hexdigest [x61; x62; x63]
  = "ba7816bf8f01cfea414140de5dae2223b00361a396177a9cb410ff61f20015ad".
Proof. vm_compute. reflexivity. Qed.

Example sha256_two_blocks :
  SHA256.hexdigest (repeat x61 120)
  = "2f3d335432c70b580af0e8e1b3674a7c020d683aa5f73aaaedfdc55af904c21c".
Proof. vm_compute. reflexivity. Qed.

(** ** The world the script acts on *)

(** What a path leads to. *)
Inductive node : Type :=
| Dir
| File (data : list byte).

(** The file system, the sqlite connections that are open, and what was
    printed so far, line by line. *)
Record world : Type := {
  fs : gmap path node;
  next_conn : nat;
  open_conns : gset nat;
  stdout : list string
}.

Definition set_fs (f : gmap path node -> gmap path node) (w : world) : world :=
  {| fs := f (fs w); next_conn := next_conn w;
     open_conns := open_conns w; stdout := stdout w |}.

(** Code that acts on the world and may raise. *)
Definition io (A : Type) : Type := world -> world * result A.

#[global] Instance io_ret : MRet io := fun A a w => (w, Ok a).

#[global] Instance io_bind : MBind io := fun A B k c w =>
  match c w with
  | (w', Ok a) => k a w'
  | (w', Raise e) => (w', Raise e)
  | (w', Diverge) => (w', Diverge)
  end.

Definition raise {A} (e : exn) : io A := fun w => (w, Raise e).

Definition lift {A} (r : result A) : io A := fun w => (w, r).

(** [print(s)] *)
Definition print (s : string) : io unit := fun w =>
  ({| fs := fs w; next_conn := next_conn w; open_conns := open_conns w;
      stdout := stdout w ++ [s] |}, Ok tt).

(** [p.exists()] *)
Definition path_exists (p : path) : io bool := fun w =>
  (w, Ok (bool_decide (is_Some (fs w !! p)))).

(** [p.mkdir()]: the parent has to be a directory and [p] must be free. *)
Definition mkdir (p : path) : io unit := fun w =>
  match fs w !! p, fs w !! parent p with
  | Some _, _ => (w, Raise FileExistsError)
  | None, Some Dir => (set_fs <[p := Dir]> w, Ok tt)
  | None, Some (File _) => (w, Raise NotADirectoryError)
  | None, None => (w, Raise FileNotFoundError)
  end.

(** [p.write_bytes(data)]: creates or truncates the file [p]. *)
Definition write_bytes (p : path) (data : list byte) : io unit := fun w =>
  match fs w !! parent p, fs w !! p with
  | Some Dir, Some Dir => (w, Raise IsADirectoryError)
  | Some Dir, _ => (set_fs <[p := File data]> w, Ok tt)
  | Some (File _), _ => (w, Raise NotADirectoryError)
  | None, _ => (w, Raise FileNotFoundError)
  end.

(** ** Favicon cache *)

Section FaviconCache.

(** [Path.home()] and [environ.get('XDG_CACHE_HOME')] *)
Variable home : path.
Variable XDG_CACHE_HOME : option string.

Definition cache_dir : path :=
  match XDG_CACHE_HOME with
  | Some d => Root d
  | None => home // ".cache"
  end // "rofi-bookmarks".

Definition cache_icon (icon : list byte) : io path :=
  let loc := cache_dir // SHA256.hexdigest icon in
  there ← path_exists cache_dir;
  _ ← (if negb there then mkdir cache_dir else mret tt);
  present ← path_exists loc;
  _ ← (if negb present then write_bytes loc icon else mret tt);
  mret loc.

End FaviconCache.

Lemma join_neq p s : p // s <> p.
Proof.
  induction p as [r|p IH t]; [discriminate|].
  intros [= E ->]. now apply IH.
Qed.

Lemma path_exists_true w p n :
  fs w !! p = Some n -> path_exists p w = (w, Ok true).
Proof.
  intros H. unfold path_exists. rewrite bool_decide_eq_true_2; [reflexivity|].
  rewrite H. eauto.
Qed.

Lemma path_exists_false w p :
  fs w !! p = None -> path_exists p w = (w, Ok false).
Proof.
  intros H. unfold path_exists. rewrite bool_decide_eq_false_2; [reflexivity|].
  rewrite H. now intros [? ?].
Qed.

Ltac io_simpl :=
  unfold mbind, io_bind, mret, io_ret, raise, lift; cbn beta iota.

Section FaviconCacheFacts.

Variable home : path.
Variable xdg : option string.

(** The cache root is a directory, or it is absent and can be made. *)
Definition cache_ready (w : world) : Prop :=
  fs w !! cache_dir home xdg = Some Dir
  \/ (fs w !! cache_dir home xdg = None
      /\ fs w !! parent (cache_dir home xdg) = Some Dir).

(** [cache_dir / sha256(icon).hexdigest()] *)
Definition slot (icon : list byte) : path :=
  cache_dir home xdg // SHA256.hexdigest icon.

(** The place of [icon] in the cache is free, or holds [icon] already. *)
Definition slot_fits (icon : list byte) (w : world) : Prop :=
  fs w !! slot icon = None \/ fs w !! slot icon = Some (File icon).

(** Whatever is found at the digest path is returned as it is. *)
Lemma cache_icon_present icon w d n :
  fs w !! cache_dir home xdg = Some d ->
  fs w !! slot icon = Some n ->
  cache_icon home xdg icon w = (w, Ok (slot icon)).
Proof.
  intros Hd Hl. unfold cache_icon. io_simpl. fold (slot icon).
  rewrite (path_exists_true _ _ _ Hd). cbn [negb]. io_simpl.
  now rewrite (path_exists_true _ _ _ Hl).
Qed.

Lemma cache_icon_fresh icon w :
  cache_ready w ->
  fs w !! slot icon = None ->
  cache_icon home xdg icon w
  = (set_fs <[slot icon := File icon]>
       (if bool_decide (is_Some (fs w !! cache_dir home xdg)) then w
        else set_fs <[cache_dir home xdg := Dir]> w),
     Ok (slot icon)).
Proof.
  intros [Hd|[Hd Hp]] Hl; unfold cache_icon; io_simpl; fold (slot icon).
  - rewrite (path_exists_true _ _ _ Hd). cbn [negb]. io_simpl.
    rewrite (path_exists_false _ _ Hl). cbn [negb].
    unfold write_bytes. change (parent (slot icon)) with (cache_dir home xdg).
    rewrite Hd, Hl.
    rewrite bool_decide_eq_true_2 by eauto. reflexivity.
  - rewrite (path_exists_false _ _ Hd). cbn [negb].
    unfold mkdir. rewrite Hd, Hp.
    assert (Hl' : fs (set_fs <[cache_dir home xdg := Dir]> w)
                  !! slot icon = None).
    { cbn [fs set_fs]. rewrite lookup_insert_ne; [assumption|].
      intros E. symmetry in E. now apply join_neq in E. }
    rewrite (path_exists_false _ _ Hl'). cbn [negb].
    unfold write_bytes. rewrite Hl'.
    change (parent (slot icon)) with (cache_dir home xdg).
    replace (fs (set_fs <[cache_dir home xdg:=Dir]> w) !! cache_dir home xdg)
      with (Some Dir) by (cbn [fs set_fs]; now rewrite lookup_insert_eq).
    rewrite bool_decide_eq_false_2 by (now intros [? ?]).
    reflexivity.
Qed.

End FaviconCacheFacts.

Lemma cache_icon_returns_slot home xdg icon w p :
  (cache_icon home xdg icon w).2 = Ok p -> p = slot home xdg icon.
Proof.
  unfold cache_icon, path_exists, mkdir, write_bytes. io_simpl.
  fold (slot home xdg icon).
  repeat (match goal with
          | |- context [bool_decide ?P] => destruct (bool_decide P)
          | |- context [match ?x with _ => _ end] => destruct x
          end; cbn [negb fst snd]; io_simpl);
    cbn; congruence.
Qed.

Lemma cache_icon_first home xdg icon w :
  cache_ready home xdg w -> slot_fits home xdg icon w ->
  exists w1,
    cache_icon home xdg icon w = (w1, Ok (slot home xdg icon))
    /\ fs w1 !! cache_dir home xdg = Some Dir
    /\ fs w1 !! slot home xdg icon = Some (File icon).
Proof.
  intros Hready [Hl|Hl].
  - rewrite (cache_icon_fresh _ _ _ _ Hready Hl). eexists. split; [reflexivity|].
    cbn [fs set_fs]. rewrite lookup_insert_eq. split; [|reflexivity].
    rewrite lookup_insert_ne by (intros E; now apply join_neq in E).
    destruct Hready as [Hd|[Hd Hp]].
    + rewrite bool_decide_eq_true_2 by (rewrite Hd; eauto). assumption.
    + rewrite bool_decide_eq_false_2 by (rewrite Hd; now intros [? ?]).
      cbn [fs set_fs]. now rewrite lookup_insert_eq.
  - destruct Hready as [Hd|[Hd Hp]].
    + rewrite (cache_icon_present _ _ _ _ _ _ Hd Hl). eauto.
    + exists (set_fs <[cache_dir home xdg := Dir]> w).
      assert (Hl' : fs (set_fs <[cache_dir home xdg := Dir]> w)
                    !! slot home xdg icon = Some (File icon)).
      { cbn [fs set_fs]. rewrite lookup_insert_ne; [assumption|].
        intros E. symmetry in E. now apply join_neq in E. }
      split; [|split; [cbn [fs set_fs]; now rewrite lookup_insert_eq|assumption]].
      unfold cache_icon. io_simpl. fold (slot home xdg icon).
      rewrite (path_exists_false _ _ Hd). cbn [negb].
      unfold mkdir. rewrite Hd, Hp.
      now rewrite (path_exists_true _ _ _ Hl').
Qed.

(** A cache whose entry for the one byte [A] was cut short by an earlier
    run, and a machine whose cache home does not exist. *)
Definition stale_cache : world :=
  {| fs := {[ Root "/home/u" // ".cache" := Dir;
              Root "/home/u" // ".cache" // "rofi-bookmarks" := Dir;
              slot (Root "/home/u") None [x41] := File [] ]};
     next_conn := 0; open_conns := ∅; stdout := [] |}.

Definition bare_home : world :=
  {| fs := {[ Root "/home/u" := Dir ]};
     next_conn := 0; open_conns := ∅; stdout := [] |}.

(** C3, as it fails: where the digest path already holds other bytes,
    [cache_icon] returns the path and leaves the file as it is, so the file
    does not hold the input; and where the parent of the cache root is
    missing, [mkdir] raises. *)
Lemma cache_icon_trusts_existing_file :
  cache_icon (Root "/home/u") None [x41] stale_cache
  = (stale_cache, Ok (slot (Root "/home/u") None [x41]))
  /\ fs stale_cache !! slot (Root "/home/u") None [x41] = Some (File [])
  /\ fs stale_cache !! slot (Root "/home/u") None [x41] <> Some (File [x41])
  /\ (cache_icon (Root "/home/u") None [x41] bare_home).2
     = Raise FileNotFoundError.
Proof.
  assert (H : fs stale_cache !! slot (Root "/home/u") None [x41]
              = Some (File [])) by (vm_compute; reflexivity).
  split; [|split; [exact H|split; [rewrite H; discriminate|]]].
  - eapply cache_icon_present; [|exact H]. vm_compute. reflexivity.
  - vm_compute. reflexivity.
Qed.

(** C3, as the code has it: where the cache root exists or can be made and
    the digest path is free or already holds the same bytes, two calls with
    these bytes both return the digest path without raising, the file there
    holds exactly the bytes after the first call, and the second call changes
    nothing.  In any state the path returned depends on the bytes alone, so
    equal icons of different URLs share one file.  A file that already exists
    at the digest path is never rewritten. *)
Theorem cache_icon_idempotent (home : path) (xdg : option string)
    (icon : list byte) (w : world)
    (Hready : cache_ready home xdg w) (Hfits : slot_fits home xdg icon w) :
  let first := cache_icon home xdg icon w in
  let second := cache_icon home xdg icon first.1 in
  first.2 = Ok (slot home xdg icon)
  /\ second.2 = Ok (slot home xdg icon)
  /\ fs first.1 !! slot home xdg icon = Some (File icon)
  /\ second.1 = first.1
  /\ (forall w' p,
        (cache_icon home xdg icon w').2 = Ok p -> p = slot home xdg icon)
  /\ (forall w' d n,
        fs w' !! cache_dir home xdg = Some d ->
        fs w' !! slot home xdg icon = Some n ->
        cache_icon home xdg icon w' = (w', Ok (slot home xdg icon))).
Proof.
  cbv zeta.
  destruct (cache_icon_first _ _ _ _ Hready Hfits) as (w1 & E & Hd & Hl).
  rewrite E. cbn [fst snd].
  rewrite (cache_icon_present _ _ _ _ _ _ Hd Hl). cbn [fst snd].
  repeat split; try assumption.
  - apply cache_icon_returns_slot.
  - apply cache_icon_present.
Qed.

Definition empty_cache : world :=
  {| fs := {[ Root "/home/u" // ".cache" := Dir ]};
     next_conn := 0; open_conns := ∅; stdout := [] |}.

Lemma cache_icon_idempotent_witness :
  let first := cache_icon (Root "/home/u") None [x41] empty_cache in
  let second := cache_icon (Root "/home/u") None [x41] first.1 in
  first.2 = Ok (slot (Root "/home/u") None [x41])
  /\ second.2 = Ok (slot (Root "/home/u") None [x41])
  /\ fs first.1 !! slot (Root "/home/u") None [x41] = Some (File [x41])
  /\ second.1 = first.1
  /\ (forall w' p,
        (cache_icon (Root "/home/u") None [x41] w').2 = Ok p ->
        p = slot (Root "/home/u") None [x41])
  /\ (forall w' d n,
        fs w' !! cache_dir (Root "/home/u") None = Some d ->
        fs w' !! slot (Root "/home/u") None [x41] = Some n ->
        cache_icon (Root "/home/u") None [x41] w'
        = (w', Ok (slot (Root "/home/u") None [x41]))).
Proof.
  apply (cache_icon_idempotent (Root "/home/u") None [x41] empty_cache).
  - right. split; vm_compute; reflexivity.
  - left. vm_compute. reflexivity.
Defined.

(** ** Snapshot copier *)

(** A [sqlite3.Connection]: its number and the file it reads. *)
Record connection : Type := {
  conn_id : nat;
  database : path
}.

(** The names taken in the directory [d]. *)
Definition names_in (d : path) (m : gmap path node) : gset string :=
  list_to_set
    (omap (fun p => match p with
                    | d' // s => if decide (d' = d) then Some s else None
                    | Root _ => None
                    end)
          (elements (dom m))).

(** [copyfile(src, dst)] *)
Definition copyfile (src dst : path) : io unit := fun w =>
  if decide (src = dst) then (w, Raise SameFileError)
  else match fs w !! src with
       | Some (File data) => (set_fs <[dst := File data]> w, Ok tt)
       | Some Dir => (w, Raise IsADirectoryError)
       | None => (w, Raise FileNotFoundError)
       end.

(** [sqlite3.connect(db)]: nothing is read before the first query. *)
Definition connect (db : path) : io connection := fun w =>
  ({| fs := fs w; next_conn := S (next_conn w);
      open_conns := {[ next_conn w ]} ∪ open_conns w; stdout := stdout w |},
   Ok {| conn_id := next_conn w; database := db |}).

(** [conn.close()] *)
Definition close (c : connection) (w : world) : world :=
  {| fs := fs w; next_conn := next_conn w;
     open_conns := open_conns w ∖ {[ conn_id c ]}; stdout := stdout w |}.

(** [with closing(conn) as conn: body]: the connection is closed when the
    body leaves, with a value or with an exception. *)
Definition with_closing {A} (c : connection) (body : connection -> io A)
  : io A := fun w =>
  match body c w with
  | (w', Diverge) => (w', Diverge)
  | (w', r) => (close c w', r)
  end.

Section Snapshot.

(** [tempfile.gettempdir()] *)
Variable tmpdir : path.

(** The name [NamedTemporaryFile] picks: one that is not taken. *)
Definition mktemp (w : world) : path :=
  tmpdir // fresh (names_in tmpdir (fs w)).

(** [with NamedTemporaryFile() as temp_loc: body]: the file is created
    empty, and deleted when the body leaves. *)
Definition with_NamedTemporaryFile {A} (body : path -> io A) : io A := fun w =>
  let temp_loc := mktemp w in
  match body temp_loc (set_fs <[temp_loc := File []]> w) with
  | (w', Diverge) => (w', Diverge)
  | (w', r) => (set_fs (delete temp_loc) w', r)
  end.

(** The [@contextmanager] generator, with the caller's [with] block as
    [body]: it runs where the generator yields. *)
Definition temp_sqlite {A} (src : path) (body : connection -> io A) : io A :=
  with_NamedTemporaryFile (fun temp_loc =>
    _ ← copyfile src temp_loc;
    conn ← connect temp_loc;
    with_closing conn body).

End Snapshot.

Lemma mktemp_fresh tmpdir w : fs w !! mktemp tmpdir w = None.
Proof.
  destruct (fs w !! mktemp tmpdir w) as [n|] eqn:H; [|reflexivity].
  exfalso. apply (is_fresh (names_in tmpdir (fs w))).
  unfold names_in. rewrite elem_of_list_to_set, list_elem_of_omap.
  exists (mktemp tmpdir w). split.
  - apply elem_of_elements, elem_of_dom. eauto.
  - unfold mktemp. now rewrite decide_True.
Qed.

Example mktemp_example :
  fs (set_fs <[ mktemp (Root "/tmp") stale_cache := File [] ]> stale_cache)
  !! mktemp (Root "/tmp") stale_cache = Some (File []).
Proof. vm_compute. reflexivity. Qed.

(** C7: [temp_sqlite] copies the source file into a temporary file whose name
    was free, opens a connection to that copy and runs the caller's block
    with it; however the block leaves, with a value or with an exception,
    the connection is closed and the temporary file is deleted, and the
    block's outcome is passed on.  When the source cannot be copied no
    connection is opened and the temporary file is deleted as well. *)
Theorem temp_sqlite_releases {A} (tmpdir src : path)
    (body : connection -> io A) (w : world) :
  let temp_loc := mktemp tmpdir w in
  let conn := {| conn_id := next_conn w; database := temp_loc |} in
  let out := temp_sqlite tmpdir src body w in
  fs w !! temp_loc = None
  /\ (forall data, fs w !! src = Some (File data) ->
       exists w1,
         fs w1 !! temp_loc = Some (File data)
         /\ fs w1 !! src = Some (File data)
         /\ conn_id conn ∈ open_conns w1
         /\ stdout w1 = stdout w
         /\ out.2 = (body conn w1).2
         /\ (out.2 <> Diverge ->
             out.1 = set_fs (delete temp_loc) (close conn (body conn w1).1)
             /\ fs out.1 !! temp_loc = None
             /\ conn_id conn ∉ open_conns out.1))
  /\ ((forall data, fs w !! src <> Some (File data)) ->
      (exists e, out.2 = Raise e)
      /\ fs out.1 !! temp_loc = None
      /\ open_conns out.1 = open_conns w
      /\ stdout out.1 = stdout w).
Proof.
  cbv zeta. pose proof (mktemp_fresh tmpdir w) as Hfresh.
  split; [exact Hfresh|]. split.
  - intros data Hsrc.
    assert (Hne : src <> mktemp tmpdir w) by congruence.
    unfold temp_sqlite, with_NamedTemporaryFile, copyfile, connect, with_closing.
    io_simpl. rewrite decide_False by assumption.
    cbn [fs set_fs]. rewrite lookup_insert_ne by congruence. rewrite Hsrc.
    cbn [fs set_fs next_conn open_conns stdout].
    exists {| fs := <[mktemp tmpdir w := File data]>
                      (<[mktemp tmpdir w := File []]> (fs w));
              next_conn := S (next_conn w);
              open_conns := {[ next_conn w ]} ∪ open_conns w;
              stdout := stdout w |}.
    split; [|split; [|split; [|split; [reflexivity|]]]];
      cbn [fs set_fs open_conns].
    + apply lookup_insert_eq.
    + rewrite lookup_insert_ne by congruence.
      rewrite lookup_insert_ne by congruence. exact Hsrc.
    + set_solver.
    + match goal with
      | |- context [body ?c ?w1] => destruct (body c w1) as [w' [a|e|]]
      end; cbn [fst snd].
      * split; [reflexivity|]. intros _. split; [reflexivity|].
        cbn [fs set_fs close open_conns]. rewrite lookup_delete_eq.
        split; [reflexivity|set_solver].
      * split; [reflexivity|]. intros _. split; [reflexivity|].
        cbn [fs set_fs close open_conns]. rewrite lookup_delete_eq.
        split; [reflexivity|set_solver].
      * split; [reflexivity|]. congruence.
  - intros Hsrc.
    unfold temp_sqlite, with_NamedTemporaryFile, copyfile. io_simpl.
    destruct (decide (src = mktemp tmpdir w)) as [E|Hne].
    + cbn [fst snd fs set_fs open_conns stdout]. rewrite lookup_delete_eq. eauto.
    + cbn [fs set_fs]. rewrite lookup_insert_ne by congruence.
      destruct (fs w !! src) as [[|data]|] eqn:E;
        [| exfalso; now apply (Hsrc data) |];
        cbn [fst snd fs set_fs open_conns stdout]; rewrite lookup_delete_eq; eauto.
Qed.

(** ** Path filter and renderer *)

(** [all(name == next(path_arr) for name in search_path)], with what is left
    of the iterator [path_arr] afterwards.  [all] stops at the first name
    that differs.  When the iterator is exhausted [next] raises
    [StopIteration] inside the generator expression, which Python (3.7 and
    later, PEP 479) turns into a [RuntimeError]. *)
Fixpoint all_match (search_path : list string) (path_arr : list (option string))
  : result (bool * list (option string)) :=
  match search_path with
  | [] => Ok (true, path_arr)
  | name :: search_path' =>
      match path_arr with
      | [] => Raise RuntimeError
      | t :: path_arr' =>
          if decide (t = Some name) then all_match search_path' path_arr'
          else Ok (false, path_arr')
      end
  end.

(** The items of a list when they are all strings. *)
Fixpoint all_str (items : list (option string)) : option (list string) :=
  match items with
  | [] => Some []
  | Some s :: items' => cons s <$> all_str items'
  | None :: _ => None
  end.

(** [sep.join(items)]: a [TypeError] when an item is [None]. *)
Definition join (sep : string) (items : list (option string)) : result string :=
  match all_str items with
  | Some ss => Ok (PyStr.join sep ss)
  | None => Raise TypeError
  end.

(** [title if title else "Untitled Bookmark"] *)
Definition display_name (title : option string) : string :=
  match title with
  | Some t => if PyStr.truthy t then t else "Untitled Bookmark"
  | None => "Untitled Bookmark"
  end.

(** [f"{url}"] *)
Definition format_url (url : option string) : string :=
  match url with
  | Some u => u
  | None => "None"
  end.

Definition NUL : string := String (ascii_of_nat 0) "".
Definition US : string := String (ascii_of_nat 31) "".

(** [f"{display_name}\x00info\x1f{url}"] and
    [f"{display_name}\x00info\x1f{url}\x1ficon\x1f{loc}"] *)
Definition format_line (r : row) (icon : option path) : string :=
  display_name (r_title r) +:+ NUL +:+ "info" +:+ US +:+ format_url (r_url r)
  +:+ match icon with
      | Some loc => US +:+ "icon" +:+ US +:+ str loc
      | None => ""
      end.

(** The filter of one bookmark row, up to and including the computation of
    [path], which is not used afterwards. *)
Definition accepts (by_id : gmap Z (option string * Z))
    (search_path : list string) (sep : string) (r : row) : result bool :=
  arr ← path_arr by_id (r_id r);
  '(matched, rest) ← all_match search_path arr;
  if (matched : bool) then _ ← join sep rest; Ok true else Ok false.

(** [try: c except: handler] with a bare [except]. *)
Definition try_except {A} (c handler : io A) : io A := fun w =>
  match c w with
  | (w', Raise _) => handler w'
  | out => out
  end.

(** [for x in l: f(x)] *)
Fixpoint for_each {A} (l : list A) (f : A -> io unit) : io unit :=
  match l with
  | [] => mret tt
  | x :: l' => _ ← f x; for_each l' f
  end.

Section Listing.

Variable home : path.
Variable XDG_CACHE_HOME : option string.
Variable tmpdir : path.

(** What sqlite answers on a database file with the given content: the rows
    of the bookmarks query, and the first column of the row of the icon
    query for a URL (NULL when no icon matches). *)
Variable select_bookmarks : list byte -> result (list row).
Variable select_icon : list byte -> option string -> result (option (list byte)).

(** The content a query on [c] reads. *)
Definition database_content (c : connection) : io (list byte) := fun w =>
  if decide (conn_id c ∈ open_conns w) then
    match fs w !! database c with
    | Some (File data) => (w, Ok data)
    | _ => (w, Raise DatabaseError)
    end
  else (w, Raise ProgrammingError).

(** [places.execute(...).fetchall()] *)
Definition fetch_bookmarks (c : connection) : io (list row) :=
  data ← database_content c; lift (select_bookmarks data).

(** [favicons.execute(..., (url,)).fetchone()[0]] *)
Definition fetch_icon (c : connection) (url : option string)
  : io (option (list byte)) :=
  data ← database_content c; lift (select_icon data url).

(** The part of the loop body after the filter: the icon lookup and the
    [print]. *)
Definition emit (favicon_available : bool) (favicons : option connection)
    (r : row) : io unit :=
  icon ← match favicons with
         | Some c =>
             if favicon_available
             then try_except (fetch_icon c (r_url r)) (mret None)
             else mret None
         | None => mret None
         end;
  match icon with
  | Some (b :: data) =>
      loc ← cache_icon home XDG_CACHE_HOME (b :: data);
      print (format_line r (Some loc))
  | _ => print (format_line r None)
  end.

(** The body of [for index, parent, type, title, url in conn_res]. *)
Definition write_row (by_id : gmap Z (option string * Z))
    (favicon_available : bool) (favicons : option connection)
    (search_path : list string) (sep : string) (r : row) : io unit :=
  if r_type r =? 1 then
    ok ← lift (accepts by_id search_path sep r);
    if (ok : bool) then emit favicon_available favicons r else mret tt
  else mret tt.

Definition write_rofi_input (profile_loc : path) (search_path : list string)
    (sep : string) : io unit :=
  let places_db := profile_loc // "places.sqlite" in
  let favicons_db := profile_loc // "favicons.sqlite" in
  found ← path_exists places_db;
  if negb found then
    raise (Exception ("places.sqlite not found in profile: " +:+ str profile_loc))
  else
    conn_res ← temp_sqlite tmpdir places_db fetch_bookmarks;
    let by_id := by_id_of conn_res in
    favicon_available ← path_exists favicons_db;
    let body (favicons : option connection) :=
      for_each conn_res
        (write_row by_id favicon_available favicons search_path sep) in
    if favicon_available
    then temp_sqlite tmpdir favicons_db (fun c => body (Some c))
    else body None.

End Listing.

(** ** The path argument *)

(** A segment: a string without a slash. *)
Definition segment (s : string) : Prop := PyStr.contains "/" s = false.

Lemma split_segment s : segment s -> PyStr.split "/" s = [s].
Proof.
  unfold segment. induction s as [|x s IH]; [reflexivity|].
  cbn [PyStr.contains PyStr.startswith PyStr.split].
  destruct (Ascii.eqb_spec "/"%char x) as [E|Hx]; [discriminate|].
  cbn [andb orb]. intros Hs. rewrite (IH Hs).
  destruct (Ascii.eqb_spec x "/"%char) as [E|_]; [congruence|reflexivity].
Qed.

Lemma search_path_of_segment s :
  segment s -> s <> "" -> search_path_of s = [s].
Proof.
  intros Hs Hne. unfold search_path_of. rewrite (split_segment s Hs).
  simpl. destruct (String.eqb_spec s ""); [contradiction|reflexivity].
Qed.

Lemma split_pieces c s : Forall (fun t => PyStr.contains (String c "") t = false)
                                (PyStr.split c s).
Proof.
  induction s as [|x s IH]; cbn [PyStr.split].
  - now repeat constructor.
  - destruct (Ascii.eqb_spec x c) as [E|Hx].
    + constructor; [reflexivity|exact IH].
    + destruct (PyStr.split c s) as [|t ts]; inversion IH; subst.
      * repeat constructor. cbn [PyStr.contains PyStr.startswith].
        destruct (Ascii.eqb_spec c x) as [E|_]; [congruence|reflexivity].
      * constructor; [|assumption]. cbn [PyStr.contains PyStr.startswith].
        destruct (Ascii.eqb_spec c x) as [E|_]; [congruence|].
        cbn [andb orb]. assumption.
Qed.

Lemma search_path_of_pieces p :
  Forall (fun s => segment s /\ s <> "") (search_path_of p).
Proof.
  unfold search_path_of. apply Forall_forall. intros s Hs.
  apply list_elem_of_In, filter_In in Hs. destruct Hs as [Hin Hne].
  split.
  - pose proof (split_pieces "/" p) as H. rewrite Forall_forall in H.
    apply H. now apply list_elem_of_In.
  - intros ->. discriminate.
Qed.

(** C10: the path argument is split on the slash and the empty pieces are
    dropped, so a leading, a trailing or a doubled slash changes nothing, and
    an argument made of slashes only gives the empty search path, the one of
    the empty argument, which the filter passes for every resolved path. *)
Theorem search_path_ignores_slashes :
  (forall p, search_path_of p
             = List.filter (fun i => negb (String.eqb i "")) (PyStr.split "/" p))
  /\ (forall p, Forall (fun s => segment s /\ s <> "") (search_path_of p))
  /\ (forall s, segment s -> s <> "" -> search_path_of s = [s])
  /\ (forall p1 p2, search_path_of (p1 +:+ "/" +:+ p2)
                    = search_path_of p1 ++ search_path_of p2)
  /\ (forall p, search_path_of ("/" +:+ p) = search_path_of p)
  /\ (forall p, search_path_of (p +:+ "/") = search_path_of p)
  /\ (forall p1 p2, search_path_of (p1 +:+ "//" +:+ p2)
                    = search_path_of (p1 +:+ "/" +:+ p2))
  /\ (forall n, search_path_of (PyStr.repeat_char "/" n) = search_path_of ""
                /\ search_path_of (PyStr.repeat_char "/" n) = [])
  /\ (forall n arr, all_match (search_path_of (PyStr.repeat_char "/" n)) arr
                    = Ok (true, arr)).
Proof.
  split; [reflexivity|].
  split; [exact search_path_of_pieces|].
  split; [exact search_path_of_segment|].
  split; [exact search_path_of_app|].
  split; [exact search_path_of_leading|].
  split; [exact search_path_of_trailing|].
  split; [exact search_path_of_doubled|].
  split.
  - intros n. now rewrite search_path_of_only_slashes, search_path_of_empty.
  - intros n arr. now rewrite search_path_of_only_slashes.
Qed.

(** ** The listing *)

(** *** Code that differs in a block only *)

Lemma mbind_ext {A B} (c : io A) (k1 k2 : A -> io B) w :
  (forall a w', k1 a w' = k2 a w') -> (c ≫= k1) w = (c ≫= k2) w.
Proof.
  intros H. unfold mbind, io_bind. destruct (c w) as [w' [a| |]]; auto.
Qed.

Lemma for_each_ext {A} (f g : A -> io unit) (l : list A) :
  (forall x w, f x w = g x w) -> forall w, for_each l f w = for_each l g w.
Proof.
  intros H. induction l as [|x l IH]; intros w; [reflexivity|].
  cbn [for_each]. unfold mbind, io_bind. rewrite H.
  destruct (g x w) as [w' [[]| |]]; auto.
Qed.

Lemma temp_sqlite_ext {A} tmpdir src (b1 b2 : connection -> io A) :
  (forall c w, b1 c w = b2 c w) ->
  forall w, temp_sqlite tmpdir src b1 w = temp_sqlite tmpdir src b2 w.
Proof.
  intros H w. unfold temp_sqlite, with_NamedTemporaryFile.
  assert (E : forall p w',
    (copyfile src p ≫= fun _ => connect p ≫= fun conn => with_closing conn b1) w'
    = (copyfile src p ≫= fun _ => connect p ≫= fun conn => with_closing conn b2) w').
  { intros p w'. apply mbind_ext. intros _ w2. apply mbind_ext.
    intros c w3. unfold with_closing. now rewrite H. }
  now rewrite E.
Qed.

(** *** The separator *)

Lemma accepts_sep m search_path sep1 sep2 r :
  accepts m search_path sep1 r = accepts m search_path sep2 r.
Proof.
  unfold accepts. destruct (path_arr m (r_id r)) as [arr| |]; [|reflexivity..].
  cbn. destruct (all_match search_path arr) as [[[] rest]| |]; try reflexivity.
  cbn. unfold join. now destruct (all_str rest).
Qed.

(** C9: the separator never influences the listing: whatever two separators
    are passed, the run prints the same lines, leaves the same state and ends
    the same way. *)
Theorem separator_never_matters (home : path) (XDG_CACHE_HOME : option string)
    (tmpdir : path) (select_bookmarks : list byte -> result (list row))
    (select_icon : list byte -> option string -> result (option (list byte)))
    (profile_loc : path) (search_path : list string) (sep1 sep2 : string)
    (w : world) :
  write_rofi_input home XDG_CACHE_HOME tmpdir select_bookmarks select_icon
    profile_loc search_path sep1 w
  = write_rofi_input home XDG_CACHE_HOME tmpdir select_bookmarks select_icon
      profile_loc search_path sep2 w.
Proof.
  unfold write_rofi_input. apply mbind_ext. intros found w1.
  destruct found; [|reflexivity]. cbn [negb].
  apply mbind_ext. intros conn_res w2. apply mbind_ext. intros avail w3.
  assert (Hrow : forall fav r w',
    write_row home XDG_CACHE_HOME select_icon (by_id_of conn_res) avail fav
      search_path sep1 r w'
    = write_row home XDG_CACHE_HOME select_icon (by_id_of conn_res) avail fav
        search_path sep2 r w').
  { intros fav r w'. unfold write_row.
    now rewrite (accepts_sep _ _ sep1 sep2). }
  destruct avail.
  - apply temp_sqlite_ext. intros c w'. apply for_each_ext. intros r w''.
    apply Hrow.
  - apply for_each_ext. intros r w''. apply Hrow.
Qed.

(** *** What a run prints *)

(** [prints P c]: whatever [c] does, it only appends lines to the standard
    output, and each of them satisfies [P]. *)
Definition prints {A} (P : string -> Prop) (c : io A) : Prop :=
  forall w, exists lines, stdout (c w).1 = stdout w ++ lines /\ Forall P lines.

(** [silent c]: [c] prints nothing. *)
Definition silent {A} (c : io A) : Prop :=
  forall w, stdout (c w).1 = stdout w.

Lemma silent_prints {A} P (c : io A) : silent c -> prints P c.
Proof. intros H w. exists []. now rewrite H, app_nil_r. Qed.

Lemma prints_bind {A B} P (Q : A -> Prop) (c : io A) (k : A -> io B) :
  prints P c ->
  (forall w a, (c w).2 = Ok a -> Q a) ->
  (forall a, Q a -> prints P (k a)) ->
  prints P (c ≫= k).
Proof.
  intros Hc HQ Hk w. unfold mbind, io_bind.
  destruct (Hc w) as (l1 & E1 & F1). specialize (HQ w).
  destruct (c w) as [w' [a| |]]; cbn [fst snd] in *; eauto.
  destruct (Hk a (HQ a eq_refl) w') as (l2 & E2 & F2).
  exists (l1 ++ l2). rewrite E2, E1, app_assoc. split; [reflexivity|].
  now apply Forall_app.
Qed.

Lemma silent_bind {A B} (c : io A) (k : A -> io B) :
  silent c -> (forall a, silent (k a)) -> silent (c ≫= k).
Proof.
  intros Hc Hk w. unfold mbind, io_bind. specialize (Hc w).
  destruct (c w) as [w' [a| |]]; cbn [fst snd] in *; auto.
  now rewrite Hk.
Qed.

Lemma silent_mret {A} (a : A) : silent (mret a).
Proof. now intros w. Qed.

Lemma silent_lift {A} (r : result A) : silent (lift r).
Proof. now intros w. Qed.

Lemma silent_raise {A} e : silent (raise (A := A) e).
Proof. now intros w. Qed.

Lemma silent_path_exists p : silent (path_exists p).
Proof. now intros w. Qed.

Lemma silent_mkdir p : silent (mkdir p).
Proof.
  intros w. unfold mkdir.
  destruct (fs w !! p); [reflexivity|].
  now destruct (fs w !! parent p) as [[]|].
Qed.

Lemma silent_write_bytes p data : silent (write_bytes p data).
Proof.
  intros w. unfold write_bytes.
  destruct (fs w !! parent p) as [[]|]; [|reflexivity..].
  now destruct (fs w !! p) as [[]|].
Qed.

Lemma silent_cache_icon home xdg icon : silent (cache_icon home xdg icon).
Proof.
  unfold cache_icon.
  apply silent_bind; [apply silent_path_exists|]. intros there.
  apply silent_bind.
  { destruct there; [apply silent_mret|apply silent_mkdir]. }
  intros _. apply silent_bind; [apply silent_path_exists|]. intros present.
  apply silent_bind; [|intros _; apply silent_mret].
  destruct present; [apply silent_mret|apply silent_write_bytes].
Qed.

Lemma silent_copyfile src dst : silent (copyfile src dst).
Proof.
  intros w. unfold copyfile. case_decide; [reflexivity|].
  now destruct (fs w !! src) as [[]|].
Qed.

Lemma silent_connect p : silent (connect p).
Proof. now intros w. Qed.

Lemma prints_print (P : string -> Prop) s : P s -> prints P (print s).
Proof. intros H w. exists [s]. split; [reflexivity|]. now repeat constructor. Qed.

Lemma prints_try_except {A} P (c h : io A) :
  prints P c -> prints P h -> prints P (try_except c h).
Proof.
  intros Hc Hh w. unfold try_except. destruct (Hc w) as (l1 & E1 & F1).
  destruct (c w) as [w' [a|e|]]; cbn [fst snd] in *; eauto.
  destruct (Hh w') as (l2 & E2 & F2).
  exists (l1 ++ l2). rewrite E2, E1, app_assoc. split; [reflexivity|].
  now apply Forall_app.
Qed.

Lemma prints_with_closing {A} P c (body : connection -> io A) :
  prints P (body c) -> prints P (with_closing c body).
Proof.
  intros H w. unfold with_closing. destruct (H w) as (l & E & F).
  exists l. split; [|assumption].
  destruct (body c w) as [w' [a|e|]]; exact E.
Qed.

Lemma prints_temp_sqlite {A} P tmpdir src (body : connection -> io A) :
  (forall c, prints P (body c)) -> prints P (temp_sqlite tmpdir src body).
Proof.
  intros H w. unfold temp_sqlite, with_NamedTemporaryFile.
  set (c := copyfile src (mktemp tmpdir w) ≫= _).
  assert (Hc : prints P c).
  { apply (prints_bind P (fun _ => True)); [|auto|].
    - apply silent_prints, silent_copyfile.
    - intros _ _. apply (prints_bind P (fun _ => True)); [|auto|].
      + apply silent_prints, silent_connect.
      + intros conn _. apply prints_with_closing, H. }
  destruct (Hc (set_fs <[mktemp tmpdir w := File []]> w)) as (l & E & F).
  exists l. split; [|assumption].
  destruct (c _) as [w' [a|e|]]; exact E.
Qed.

Lemma prints_for_each {A} P (l : list A) (f : A -> io unit) :
  (forall x, x ∈ l -> prints P (f x)) -> prints P (for_each l f).
Proof.
  induction l as [|x l IH]; intros H.
  - apply silent_prints, silent_mret.
  - cbn [for_each]. apply (prints_bind P (fun _ => True)); [|auto|].
    + apply H. now left.
    + intros _ _. apply IH. intros y Hy. apply H. now right.
Qed.


Lemma database_content_same c w : (database_content c w).1 = w.
Proof.
  unfold database_content. case_decide; [|reflexivity].
  now destruct (fs w !! database c) as [[]|].
Qed.

Lemma fetch_icon_same si c url w : (fetch_icon si c url w).1 = w.
Proof.
  unfold fetch_icon, mbind, io_bind, lift.
  pose proof (database_content_same c w) as H.
  destruct (database_content c w) as [w' [data| |]]; exact H.
Qed.


(** The rows the listing works on are the answer of the bookmarks query on
    the content of the source file. *)
Lemma temp_sqlite_fetch tmpdir sb src w w' rows :
  temp_sqlite tmpdir src (fetch_bookmarks sb) w = (w', Ok rows) ->
  exists data, fs w !! src = Some (File data) /\ sb data = Ok rows
               /\ stdout w' = stdout w.
Proof.
  unfold temp_sqlite, with_NamedTemporaryFile, copyfile, connect, with_closing,
    fetch_bookmarks, database_content.
  io_simpl. destruct (decide (src = mktemp tmpdir w)) as [E|Hne];
    [discriminate|].
  cbn [fs set_fs]. rewrite lookup_insert_ne by congruence.
  destruct (fs w !! src) as [[|data]|]; [discriminate| |discriminate].
  cbn [fs set_fs next_conn open_conns stdout conn_id database].
  rewrite decide_True by set_solver. rewrite lookup_insert_eq.
  destruct (sb data) as [rows'| |] eqn:Hsb; [|discriminate..].
  intros [= <- <-]. exists data. now repeat split.
Qed.

Lemma silent_fetch_bookmarks sb c : silent (fetch_bookmarks sb c).
Proof.
  apply silent_bind; [|intros data; apply silent_lift].
  intros w. now rewrite database_content_same.
Qed.

Lemma emitted_output_of_fetch tmpdir sb src w :
  inhabited (stdout (temp_sqlite tmpdir src (fetch_bookmarks sb) w).1 = stdout w).
Proof.
  destruct (prints_temp_sqlite (fun _ => False) tmpdir src (fetch_bookmarks sb)
              (fun c => silent_prints _ _ (silent_fetch_bookmarks sb c)) w)
    as (l & E & F).
  destruct l; [|inversion F; contradiction].
  constructor. now rewrite app_nil_r in E.
Qed.

Lemma bind_unfold {A B} (c : io A) (k : A -> io B) w :
  (c ≫= k) w = match c w with
               | (w', Ok a) => k a w'
               | (w', Raise e) => (w', Raise e)
               | (w', Diverge) => (w', Diverge)
               end.
Proof. reflexivity. Qed.

Lemma bind_path_exists {B} p (k : bool -> io B) w :
  (path_exists p ≫= k) w = k (bool_decide (is_Some (fs w !! p))) w.
Proof. reflexivity. Qed.

(** *** Favicon lookups that fail *)

(** A lookup whose failure is read as "no icon". *)
Definition icon_or_absent (r : result (option (list byte)))
  : result (option (list byte)) :=
  match r with
  | Raise _ => Ok None
  | _ => r
  end.

Lemma try_fetch_icon_absent si c url w :
  try_except (fetch_icon si c url) (mret None) w
  = try_except (fetch_icon (fun d u => icon_or_absent (si d u)) c url)
      (mret None) w.
Proof.
  unfold try_except, fetch_icon. rewrite !bind_unfold.
  pose proof (database_content_same c w) as H.
  destruct (database_content c w) as [w' [data|e|]]; cbn [fst] in H; subst w';
    [|reflexivity..].
  unfold lift. now destruct (si data url) as [x|e|].
Qed.

Lemma emit_absent home xdg si fa fav r w :
  emit home xdg si fa fav r w
  = emit home xdg (fun d u => icon_or_absent (si d u)) fa fav r w.
Proof.
  unfold emit. destruct fav as [c|]; [|reflexivity].
  destruct fa; [|reflexivity].
  rewrite !bind_unfold. now rewrite try_fetch_icon_absent.
Qed.

Lemma emit_lookup_failed home xdg si c r w e :
  (fetch_icon si c (r_url r) w).2 = Raise e ->
  emit home xdg si true (Some c) r w = print (format_line r None) w.
Proof.
  intros H. unfold emit. rewrite bind_unfold. unfold try_except.
  pose proof (fetch_icon_same si c (r_url r) w) as Hw.
  destruct (fetch_icon si c (r_url r) w) as [w' res]. cbn [fst snd] in *.
  now subst.
Qed.

(** The rows that are printed: the bookmarks that the filter accepts. *)
Definition shown (m : gmap Z (option string * Z)) (search_path : list string)
    (sep : string) (r : row) : bool :=
  (r_type r =? 1)
  && match accepts m search_path sep r with
     | Ok true => true
     | _ => false
     end.

Lemma temp_sqlite_fetch_ok tmpdir sb src w data rows :
  fs w !! src = Some (File data) -> sb data = Ok rows ->
  exists w1, temp_sqlite tmpdir src (fetch_bookmarks sb) w = (w1, Ok rows)
             /\ fs w1 = fs w /\ stdout w1 = stdout w.
Proof.
  intros Hsrc Hsb. pose proof (mktemp_fresh tmpdir w) as Hfresh.
  assert (Hne : src <> mktemp tmpdir w) by congruence.
  unfold temp_sqlite, with_NamedTemporaryFile, copyfile, connect, with_closing,
    fetch_bookmarks, database_content.
  io_simpl. rewrite decide_False by assumption.
  cbn [fs set_fs]. rewrite lookup_insert_ne by congruence. rewrite Hsrc.
  cbn [fs set_fs next_conn open_conns stdout conn_id database].
  rewrite decide_True by set_solver. rewrite lookup_insert_eq, Hsb.
  eexists. split; [reflexivity|]. cbn [fs set_fs close stdout].
  split; [|reflexivity]. now rewrite !delete_insert_eq, delete_id.
Qed.

(** The listing as the filter alone decides it: the lines, all without icon
    field, of the bookmarks that the filter accepts, up to the first bookmark
    on which the filter raises or never ends, and the way the loop ends. *)
Fixpoint plain_listing (m : gmap Z (option string * Z))
    (search_path : list string) (sep : string) (rows : list row)
  : list string * result unit :=
  match rows with
  | [] => ([], Ok tt)
  | r :: rows' =>
      if r_type r =? 1 then
        match accepts m search_path sep r with
        | Ok b =>
            let rest := plain_listing m search_path sep rows' in
            ((if b then [format_line r None] else []) ++ rest.1, rest.2)
        | Raise e => ([], Raise e)
        | Diverge => ([], Diverge)
        end
      else plain_listing m search_path sep rows'
  end.

Lemma plain_listing_lines m sp sep rows :
  Forall (fun l => exists r,
            r ∈ rows /\ r_type r = 1 /\ accepts m sp sep r = Ok true
            /\ l = display_name (r_title r) +:+ NUL +:+ "info" +:+ US
                   +:+ format_url (r_url r))
         (plain_listing m sp sep rows).1.
Proof.
  induction rows as [|r rows IH]; cbn [plain_listing]; [constructor|].
  assert (IH' : Forall (fun l => exists q,
            q ∈ r :: rows /\ r_type q = 1 /\ accepts m sp sep q = Ok true
            /\ l = display_name (r_title q) +:+ NUL +:+ "info" +:+ US
                   +:+ format_url (r_url q))
         (plain_listing m sp sep rows).1).
  { eapply Forall_impl; [exact IH|]. intros l (q & Hq & H). exists q.
    split; [now right|exact H]. }
  destruct (Z.eqb_spec (r_type r) 1) as [Ht|_]; [|exact IH'].
  destruct (accepts m sp sep r) as [[]| |] eqn:Hacc; cbn [fst app];
    try constructor; try exact IH'.
  exists r. split; [now left|]. split; [exact Ht|]. split; [exact Hacc|].
  unfold format_line. now rewrite append_empty_r.
Qed.

Lemma plain_listing_complete m sp sep rows :
  Forall (fun r => r_type r = 1 -> exists b, accepts m sp sep r = Ok b) rows ->
  plain_listing m sp sep rows
  = ((fun r => format_line r None) <$> List.filter (shown m sp sep) rows,
     Ok tt).
Proof.
  induction 1 as [|r rows Hr _ IH]; [reflexivity|].
  cbn [plain_listing List.filter]. unfold shown at 1.
  destruct (Z.eqb_spec (r_type r) 1) as [Ht|_]; cbn [andb]; [|exact IH].
  destruct (Hr Ht) as [b ->]. rewrite IH. now destruct b.
Qed.

(** A loop whose printing step prints the line without icon field does what
    [plain_listing] says. *)
Lemma for_each_no_icon home xdg si m fa fav sp sep :
  (forall r w, emit home xdg si fa fav r w = print (format_line r None) w) ->
  forall rows w,
    (for_each rows (write_row home xdg si m fa fav sp sep) w).2
    = (plain_listing m sp sep rows).2
    /\ stdout (for_each rows (write_row home xdg si m fa fav sp sep) w).1
       = stdout w ++ (plain_listing m sp sep rows).1.
Proof.
  intros Hemit. induction rows as [|r rows IH]; intros w.
  - cbn. now rewrite app_nil_r.
  - cbn [for_each plain_listing]. rewrite bind_unfold. unfold write_row at 1 3.
    destruct (Z.eqb_spec (r_type r) 1) as [Ht|_]; [|apply IH].
    rewrite bind_unfold. unfold lift.
    destruct (accepts m sp sep r) as [[]| |]; cbn [fst snd];
      try (now rewrite app_nil_r); [|apply IH].
    rewrite Hemit. cbn [print].
    match goal with |- context [for_each rows ?f ?w1] =>
      destruct (IH w1) as [E1 E2] end.
    rewrite E1, E2. cbn [stdout app]. now rewrite <- app_assoc.
Qed.

(** What a snapshot passes on from its block, when the source is a file. *)
Lemma temp_sqlite_body {A} tmpdir src (body : connection -> io A) w data :
  fs w !! src = Some (File data) ->
  exists c w1,
    stdout w1 = stdout w
    /\ (temp_sqlite tmpdir src body w).2 = (body c w1).2
    /\ stdout (temp_sqlite tmpdir src body w).1 = stdout (body c w1).1.
Proof.
  intros Hsrc. pose proof (mktemp_fresh tmpdir w) as Hfresh.
  assert (Hne : src <> mktemp tmpdir w) by congruence.
  unfold temp_sqlite, with_NamedTemporaryFile, copyfile, connect, with_closing.
  io_simpl. rewrite decide_False by assumption.
  cbn [fs set_fs]. rewrite lookup_insert_ne by congruence. rewrite Hsrc.
  cbn [fs set_fs next_conn open_conns stdout].
  match goal with |- context [body ?c ?w1] => exists c, w1 end.
  split; [reflexivity|].
  match goal with |- context [body ?c ?w1] =>
    destruct (body c w1) as [w2 [a|e|]] end; now split.
Qed.

Lemma fetch_icon_fails si c url w :
  (forall d u, exists e, si d u = Raise e) ->
  exists e, (fetch_icon si c url w).2 = Raise e.
Proof.
  intros H. unfold fetch_icon, database_content. rewrite bind_unfold.
  case_decide; [|eauto].
  destruct (fs w !! database c) as [[|data]|]; eauto.
  unfold lift. cbn [snd]. apply H.
Qed.

Lemma listing_no_icon home xdg tmpdir sb si profile_loc sp sep w data rows :
  fs w !! (profile_loc // "places.sqlite") = Some (File data) ->
  sb data = Ok rows ->
  fs w !! (profile_loc // "favicons.sqlite") = None
  \/ ((exists fdata,
         fs w !! (profile_loc // "favicons.sqlite") = Some (File fdata))
      /\ forall d u, exists e, si d u = Raise e) ->
  (write_rofi_input home xdg tmpdir sb si profile_loc sp sep w).2
  = (plain_listing (by_id_of rows) sp sep rows).2
  /\ stdout (write_rofi_input home xdg tmpdir sb si profile_loc sp sep w).1
     = stdout w ++ (plain_listing (by_id_of rows) sp sep rows).1.
Proof.
  intros Hplaces Hrows Hfav.
  destruct (temp_sqlite_fetch_ok tmpdir _ _ _ _ _ Hplaces Hrows)
    as (w1 & Hfetch & Hfs & Hout).
  destruct Hfav as [Hnone|[[fdata Hfile] Hfail]].
  - assert (Hrun :
      write_rofi_input home xdg tmpdir sb si profile_loc sp sep w
      = for_each rows
          (write_row home xdg si (by_id_of rows) false None sp sep) w1).
    { unfold write_rofi_input. rewrite bind_path_exists.
      rewrite Hplaces, bool_decide_eq_true_2 by eauto. cbn [negb].
      rewrite bind_unfold, Hfetch, bind_path_exists, Hfs, Hnone.
      now rewrite bool_decide_eq_false_2 by (now intros [? ?]). }
    rewrite Hrun, <- Hout. now apply for_each_no_icon.
  - assert (Hrun :
      write_rofi_input home xdg tmpdir sb si profile_loc sp sep w
      = temp_sqlite tmpdir (profile_loc // "favicons.sqlite")
          (fun c => for_each rows
             (write_row home xdg si (by_id_of rows) true (Some c) sp sep))
          w1).
    { unfold write_rofi_input. rewrite bind_path_exists.
      rewrite Hplaces, bool_decide_eq_true_2 by eauto. cbn [negb].
      rewrite bind_unfold, Hfetch, bind_path_exists, Hfs, Hfile.
      now rewrite bool_decide_eq_true_2 by eauto. }
    rewrite Hrun. rewrite <- Hfs in Hfile.
    destruct (temp_sqlite_body tmpdir _
                (fun c => for_each rows
                   (write_row home xdg si (by_id_of rows) true (Some c) sp sep))
                w1 fdata Hfile) as (c & w2 & Hw2 & E1 & E2).
    rewrite E1, E2, <- Hout, <- Hw2. apply for_each_no_icon.
    intros r w'. destruct (fetch_icon_fails si c (r_url r) w' Hfail) as [e He].
    now apply (emit_lookup_failed _ _ _ _ _ _ e).
Qed.

(** C4: a favicon lookup that fails for a bookmark is recovered on the spot:
    the bookmark is printed without the icon field and the loop goes on, so
    the whole listing is the one of a favicon store that answers "no icon"
    where the real one fails.  Without a favicons database, and also with one
    whose every lookup fails, the listing is what the filter alone decides:
    it ends as the loop over the rows ends and prints, for each accepted
    bookmark and in the order of the query, the line without the icon
    field; when the filter raises on no row, it ends normally with the lines
    of all the accepted bookmarks. *)
Theorem favicon_failure_is_local (home : path) (XDG_CACHE_HOME : option string)
    (tmpdir : path) (select_bookmarks : list byte -> result (list row))
    (select_icon : list byte -> option string -> result (option (list byte)))
    (profile_loc : path) (search_path : list string) (sep : string)
    (w : world) :
  let out := write_rofi_input home XDG_CACHE_HOME tmpdir select_bookmarks
               select_icon profile_loc search_path sep w in
  (forall c r w' e,
     (fetch_icon select_icon c (r_url r) w').2 = Raise e ->
     emit home XDG_CACHE_HOME select_icon true (Some c) r w'
     = print (format_line r None) w')
  /\ out = write_rofi_input home XDG_CACHE_HOME tmpdir select_bookmarks
             (fun d u => icon_or_absent (select_icon d u))
             profile_loc search_path sep w
  /\ (forall data rows,
        fs w !! (profile_loc // "places.sqlite") = Some (File data) ->
        select_bookmarks data = Ok rows ->
        let expected := plain_listing (by_id_of rows) search_path sep rows in
        (fs w !! (profile_loc // "favicons.sqlite") = None ->
         out.2 = expected.2 /\ stdout out.1 = stdout w ++ expected.1)
        /\ (forall fdata,
              fs w !! (profile_loc // "favicons.sqlite") = Some (File fdata) ->
              (forall d u, exists e, select_icon d u = Raise e) ->
              out.2 = expected.2 /\ stdout out.1 = stdout w ++ expected.1)
        /\ Forall (fun l => exists r,
                     r ∈ rows /\ r_type r = 1
                     /\ accepts (by_id_of rows) search_path sep r = Ok true
                     /\ l = display_name (r_title r) +:+ NUL +:+ "info" +:+ US
                            +:+ format_url (r_url r))
                  expected.1
        /\ (Forall (fun r => r_type r = 1 ->
                      exists b, accepts (by_id_of rows) search_path sep r = Ok b)
                   rows ->
            expected
            = ((fun r => format_line r None)
               <$> List.filter (shown (by_id_of rows) search_path sep) rows,
               Ok tt))).
Proof.
  cbv zeta. split; [|split].
  - intros c r w' e. apply emit_lookup_failed.
  - unfold write_rofi_input. apply mbind_ext. intros found w1.
    destruct found; [|reflexivity]. cbn [negb].
    apply mbind_ext. intros conn_res w2. apply mbind_ext. intros avail w3.
    assert (Hrow : forall fav r w',
      write_row home XDG_CACHE_HOME select_icon (by_id_of conn_res) avail fav
        search_path sep r w'
      = write_row home XDG_CACHE_HOME
          (fun d u => icon_or_absent (select_icon d u)) (by_id_of conn_res)
          avail fav search_path sep r w').
    { intros fav r w'. unfold write_row.
      destruct (r_type r =? 1); [|reflexivity].
      apply mbind_ext. intros [] w''; [apply emit_absent|reflexivity]. }
    destruct avail.
    + apply temp_sqlite_ext. intros c w'. apply for_each_ext. intros r w''.
      apply Hrow.
    + apply for_each_ext. intros r w''. apply Hrow.
  - intros data rows Hplaces Hrows. split; [|split; [|split]].
    + intros Hnone. apply (listing_no_icon _ _ _ _ _ _ _ _ _ data); auto.
    + intros fdata Hfile Hfail.
      apply (listing_no_icon _ _ _ _ _ _ _ _ _ data); eauto.
    + apply plain_listing_lines.
    + apply plain_listing_complete.
Qed.

(** *** The prefix filter *)





(** The bookmark "Site" of the example, and a profile that holds the
    example's places database and no favicons database. *)
Definition site_row : row :=
  {| r_id := 100; r_parent := 10; r_type := 1; r_title := Some "Site";
     r_url := Some "https://example.com" |}.

Definition example_profile : path := Root "/home/u" // "work.default-release".

Definition example_world : world :=
  {| fs := {[ Root "/tmp" := Dir;
              Root "/home/u" := Dir;
              example_profile := Dir;
              example_profile // "places.sqlite" := File [x53; x51; x4c] ]};
     next_conn := 0; open_conns := ∅; stdout := [] |}.

Definition example_listing (search_path : list string) : world * result unit :=
  write_rofi_input (Root "/home/u") None (Root "/tmp")
    (fun _ => Ok example_rows) (fun _ _ => Ok None)
    example_profile search_path " / " example_world.




(** ** The script's entry point *)

(** The parsed command line: [args.path], [args.separator], [args.profile]. *)
Record arguments : Type := {
  arg_path : string;
  arg_separator : string;
  arg_profile : option string
}.

(** How a run of the script ends: [Popen] was called with [argv], or the
    listing branch left with an exit status. *)
Inductive ending : Type :=
| Launched (argv : list string)
| Exited (status : Z).

(** [try: c except Exception as e: handler(e)] *)
Definition try_except_as {A} (c : io A) (handler : exn -> io A) : io A :=
  fun w =>
  match c w with
  | (w', Raise e) => handler e w'
  | out => out
  end.

Section Main.

Variable home : path.
Variable unicode_lower : string -> string.
Variable XDG_CACHE_HOME : option string.
Variable tmpdir : path.
Variable select_bookmarks : list byte -> result (list row).
Variable select_icon : list byte -> option string -> result (option (list byte)).

(** [environ.get('ROFI_RETV')] and [environ['ROFI_INFO']] *)
Variable ROFI_RETV : option string.
Variable ROFI_INFO : option string.

(** What the scan of [firefox_dir] and the parse of [profiles.ini] give. *)
Variable listing : list entry.
Variable registry : option (list section).

(** [str(e)] for the exceptions that Python or its libraries raise. *)
Variable describe : exn -> string.

(** [f"{e}"]: the message of an exception the script raised itself. *)
Definition str_exn (e : exn) : string :=
  match e with
  | Exception msg => msg
  | _ => describe e
  end.

Definition get_firefox_command : io (list string) :=
  there ← path_exists (firefox_dir home);
  mret (if there && PyStr.contains ".var/app/org.mozilla.firefox"
                      (str (firefox_dir home))
        then ["flatpak"; "run"; "org.mozilla.firefox"]
        else ["firefox"]).

(** The branch taken when rofi reports a selected entry. *)
Definition launch (args : arguments) : io (list string) :=
  firefox_cmd ← get_firefox_command;
  let prof := match arg_profile args with
              | None => []
              | Some p => ["-P"; p]
              end in
  info ← lift (match ROFI_INFO with
               | Some url => Ok url
               | None => Raise KeyError
               end);
  mret (firefox_cmd ++ [info] ++ prof).

(** The other branch: the listing, with its [try] block. *)
Definition list_bookmarks (args : arguments) : io Z :=
  try_except_as
    (let search_path := search_path_of (arg_path args) in
     profile_path ← lift (match arg_profile args with
                          | None => default_profile_path home listing
                          | Some n =>
                              path_from_name home unicode_lower listing
                                registry n
                          end);
     _ ← print (NUL +:+ "prompt");
     _ ← write_rofi_input home XDG_CACHE_HOME tmpdir select_bookmarks
           select_icon profile_path search_path (arg_separator args);
     mret 0)
    (fun e => _ ← print ("Error: " +:+ str_exn e); mret 1).

Definition main (args : arguments) : io ending :=
  if decide (ROFI_RETV = Some "1")
  then argv ← launch args; mret (Launched argv)
  else status ← list_bookmarks args; mret (Exited status).

End Main.

(** ** Facts about the entry point *)

Lemma append_assoc (a b c : string) : (a +:+ b) +:+ c = a +:+ b +:+ c.
Proof.
  induction a as [|x a IH]; [reflexivity|].
  now rewrite !append_cons, IH.
Qed.

Lemma join_app sep (l1 l2 : list string) :
  l2 <> [] ->
  PyStr.join sep (l1 ++ l2)
  = match l1 with
    | [] => ""
    | _ => PyStr.join sep l1 +:+ sep
    end +:+ PyStr.join sep l2.
Proof.
  intros H2. induction l1 as [|x l1 IH]; [reflexivity|].
  cbn [app]. destruct l1 as [|y l1].
  - cbn [app]. destruct l2 as [|z l2]; [congruence|].
    cbn [PyStr.join]. now rewrite append_assoc.
  - change (PyStr.join sep (x :: (y :: l1) ++ l2))
      with (x +:+ sep +:+ PyStr.join sep ((y :: l1) ++ l2)).
    rewrite IH.
    change (PyStr.join sep (x :: y :: l1))
      with (x +:+ sep +:+ PyStr.join sep (y :: l1)).
    now rewrite !append_assoc.
Qed.

Lemma str_parts p :
  parts p <> [] -> str p = anchor p +:+ PyStr.join "/" (parts p).
Proof.
  intros H. unfold str. destruct (parts p); [congruence|].
  now destruct (anchor p).
Qed.

Lemma firefox_dir_parts home :
  parts (firefox_dir home)
  = parts home ++ [".var"; "app"; "org.mozilla.firefox"; ".mozilla"; "firefox"]
  /\ anchor (firefox_dir home) = anchor home.
Proof. split; reflexivity. Qed.

Lemma firefox_dir_is_flatpak home :
  PyStr.contains ".var/app/org.mozilla.firefox" (str (firefox_dir home)) = true.
Proof.
  apply contains_spec. destruct (firefox_dir_parts home) as [Ep Ea].
  rewrite str_parts, Ep, Ea, join_app; try discriminate.
  - exists (anchor home +:+ match parts home with
                            | [] => ""
                            | _ => PyStr.join "/" (parts home) +:+ "/"
                            end), "/.mozilla/firefox".
    now rewrite !append_assoc.
  - rewrite Ep. intros E. apply app_eq_nil in E as [_ E]. discriminate.
Qed.

Lemma get_firefox_command_flatpak home w :
  get_firefox_command home w
  = (w, Ok (if bool_decide (is_Some (fs w !! firefox_dir home))
            then ["flatpak"; "run"; "org.mozilla.firefox"]
            else ["firefox"])).
Proof.
  unfold get_firefox_command. rewrite bind_path_exists.
  now rewrite firefox_dir_is_flatpak, andb_true_r.
Qed.

(** The command that opens a bookmark is decided by the existence of the
    flatpak profile root alone: the test on the text of [firefox_dir] always
    holds, so [flatpak run org.mozilla.firefox] is chosen exactly when that
    directory exists and plain [firefox] otherwise; nothing is changed and
    nothing is raised. *)
Theorem get_firefox_command_by_directory (home : path) (w : world) :
  PyStr.contains ".var/app/org.mozilla.firefox" (str (firefox_dir home)) = true
  /\ get_firefox_command home w
     = (w, Ok (if bool_decide (is_Some (fs w !! firefox_dir home))
               then ["flatpak"; "run"; "org.mozilla.firefox"]
               else ["firefox"])).
Proof.
  split.
  - apply firefox_dir_is_flatpak.
  - apply get_firefox_command_flatpak.
Qed.

(** When rofi reports a selection ([ROFI_RETV] is "1") the script only
    launches the browser: the arguments of [Popen] are the command, then the
    selected URL, then [-P] and the profile when one was given; the path and
    separator arguments, the profiles and the databases play no part, nothing
    is printed and no file is touched.  Without [ROFI_INFO] the lookup
    raises [KeyError], which nothing catches. *)
Theorem main_launches_selection (home : path)
    (unicode_lower : string -> string) (XDG_CACHE_HOME : option string)
    (tmpdir : path) (select_bookmarks : list byte -> result (list row))
    (select_icon : list byte -> option string -> result (option (list byte)))
    (ROFI_INFO : option string) (listing : list entry)
    (registry : option (list section)) (describe : exn -> string)
    (args : arguments) (w : world) :
  main home unicode_lower XDG_CACHE_HOME tmpdir select_bookmarks select_icon
    (Some "1") ROFI_INFO listing registry describe args w
  = (w, match ROFI_INFO with
        | Some url =>
            Ok (Launched
                  ((if bool_decide (is_Some (fs w !! firefox_dir home))
                    then ["flatpak"; "run"; "org.mozilla.firefox"]
                    else ["firefox"])
                   ++ url :: match arg_profile args with
                             | None => []
                             | Some p => ["-P"; p]
                             end))
        | None => Raise KeyError
        end).
Proof.
  unfold main. rewrite decide_True by reflexivity.
  unfold launch. rewrite !bind_unfold, get_firefox_command_flatpak.
  now destruct ROFI_INFO.
Qed.

Lemma default_profile_path_returns home listing :
  default_profile_path home listing <> Diverge.
Proof.
  unfold default_profile_path.
  destruct (find_profile_directories listing); [discriminate|].
  now destruct (List.find _ _).
Qed.

Lemma path_from_name_returns home ul listing registry n :
  path_from_name home ul listing registry n <> Diverge.
Proof.
  unfold path_from_name.
  repeat (match goal with
          | |- context [match ?x with _ => _ end] => destruct x
          end; try discriminate).
Qed.

(** [world] with more lines printed. *)
Definition printed (w : world) (lines : list string) : world :=
  {| fs := fs w; next_conn := next_conn w; open_conns := open_conns w;
     stdout := stdout w ++ lines |}.

(** The profile the listing branch works on. *)
Definition resolve_profile (home : path) (unicode_lower : string -> string)
    (listing : list entry) (registry : option (list section))
    (args : arguments) : result path :=
  match arg_profile args with
  | None => default_profile_path home listing
  | Some n => path_from_name home unicode_lower listing registry n
  end.

Lemma resolve_profile_returns home ul listing registry args :
  resolve_profile home ul listing registry args <> Diverge.
Proof.
  unfold resolve_profile. destruct (arg_profile args);
    [apply path_from_name_returns|apply default_profile_path_returns].
Qed.

Lemma list_bookmarks_unresolved home ul xdg tmpdir sb si listing registry
    describe args w e :
  resolve_profile home ul listing registry args = Raise e ->
  list_bookmarks home ul xdg tmpdir sb si listing registry describe args w
  = (printed w ["Error: " +:+ str_exn describe e], Ok 1).
Proof.
  intros Hfound. unfold list_bookmarks, try_except_as. rewrite bind_unfold.
  unfold resolve_profile in Hfound. unfold lift at 1. rewrite Hfound.
  now rewrite bind_unfold.
Qed.

Lemma list_bookmarks_resolved home ul xdg tmpdir sb si listing registry
    describe args w p :
  resolve_profile home ul listing registry args = Ok p ->
  list_bookmarks home ul xdg tmpdir sb si listing registry describe args w
  = match write_rofi_input home xdg tmpdir sb si p
            (search_path_of (arg_path args)) (arg_separator args)
            (printed w [NUL +:+ "prompt"]) with
    | (w', Ok _) => (w', Ok 0)
    | (w', Raise e) => (printed w' ["Error: " +:+ str_exn describe e], Ok 1)
    | (w', Diverge) => (w', Diverge)
    end.
Proof.
  intros Hfound. unfold list_bookmarks, try_except_as. rewrite bind_unfold.
  unfold resolve_profile in Hfound. unfold lift at 1. rewrite Hfound.
  rewrite bind_unfold. cbn [print]. fold (printed w [NUL +:+ "prompt"]).
  rewrite bind_unfold.
  destruct (write_rofi_input _ _ _ _ _ _ _ _ _) as [w' [[]|e|]];
    reflexivity.
Qed.

(** In listing mode no exception leaves the script.  When the profile cannot
    be resolved the one line [Error: <message>] is all that is printed and
    the status is 1.  Otherwise the prompt line is printed first and the
    listing runs after it: when it returns nothing more is printed and the
    status is 0; when it raises, one line [Error: <message>] follows what it
    had printed and the status is 1.  So the status is 0 exactly when the
    [try] block came to its end, and 1 exactly when something was raised in
    it. *)
Theorem list_bookmarks_reports_errors (home : path)
    (unicode_lower : string -> string)
    (XDG_CACHE_HOME : option string) (tmpdir : path)
    (select_bookmarks : list byte -> result (list row))
    (select_icon : list byte -> option string -> result (option (list byte)))
    (listing : list entry) (registry : option (list section))
    (describe : exn -> string) (args : arguments) (w : world) :
  let out := list_bookmarks home unicode_lower XDG_CACHE_HOME tmpdir
               select_bookmarks select_icon listing registry describe args w in
  let found := resolve_profile home unicode_lower listing registry args in
  let run p := write_rofi_input home XDG_CACHE_HOME tmpdir select_bookmarks
                 select_icon p (search_path_of (arg_path args))
                 (arg_separator args) (printed w [NUL +:+ "prompt"]) in
  (forall e, found = Raise e ->
     out = (printed w ["Error: " +:+ str_exn describe e], Ok 1))
  /\ (forall p, found = Ok p ->
        ((run p).2 = Ok tt -> out = ((run p).1, Ok 0))
        /\ (forall e, (run p).2 = Raise e ->
              out = (printed (run p).1 ["Error: " +:+ str_exn describe e],
                     Ok 1))
        /\ ((run p).2 = Diverge -> out = ((run p).1, Diverge)))
  /\ found <> Diverge
  /\ (forall e, out.2 <> Raise e)
  /\ (out.2 = Ok 0 <-> exists p, found = Ok p /\ (run p).2 = Ok tt)
  /\ (out.2 = Ok 1
      <-> (exists e, found = Raise e)
          \/ exists p e, found = Ok p /\ (run p).2 = Raise e).
Proof.
  cbv zeta.
  pose proof (resolve_profile_returns home unicode_lower listing registry args)
    as Hret.
  pose proof (list_bookmarks_unresolved home unicode_lower XDG_CACHE_HOME
                tmpdir select_bookmarks select_icon listing registry describe
                args w) as Hfail.
  pose proof (list_bookmarks_resolved home unicode_lower XDG_CACHE_HOME
                tmpdir select_bookmarks select_icon listing registry describe
                args w) as Hrun.
  destruct (resolve_profile home unicode_lower listing registry args)
    as [p|e|]; [| |contradiction].
  - specialize (Hrun p eq_refl). clear Hfail.
    destruct (write_rofi_input home XDG_CACHE_HOME tmpdir select_bookmarks
                select_icon p (search_path_of (arg_path args))
                (arg_separator args) (printed w [NUL +:+ "prompt"]))
      as [w' res] eqn:Erun.
    rewrite Hrun. clear Hrun.
    split; [discriminate|]. split.
    { intros q Hq. assert (q = p) by congruence. subst q. rewrite Erun. cbn [fst snd].
      destruct res as [[]|e|]; repeat split; try discriminate.
      now intros e' [= <-]. }
    split; [discriminate|]. split; [destruct res as [[]|e|]; discriminate|].
    split; split.
    + intros Hout. exists p. split; [reflexivity|]. rewrite Erun. cbn [snd].
      now destruct res as [[]|e|].
    + intros (q & Hq & Hres). assert (q = p) by congruence.
      subst q. revert Hres. rewrite Erun. cbn [snd]. now intros ->.
    + intros Hout. right. exists p.
      destruct res as [[]|e|]; try discriminate.
      exists e. split; [reflexivity|]. now rewrite Erun.
    + intros [[e He]|(q & e & Hq & Hres)]; [discriminate|]. assert (q = p) by congruence.
      subst q. revert Hres. rewrite Erun. cbn [snd]. now intros ->.
  - specialize (Hfail e eq_refl). rewrite Hfail. cbn [fst snd].
    split; [now intros e' [= <-]|]. split; [discriminate|].
    split; [discriminate|]. split; [discriminate|]. split.
    + split; [discriminate|]. intros (q & Hq & _). discriminate.
    + split; [eauto|reflexivity].
Qed.

Lemma resolve_profile_raises home ul listing registry args e :
  resolve_profile home ul listing registry args = Raise e ->
  e = Exception
        match arg_profile args with
        | None => "No Firefox profiles found in directory structure"
        | Some n => "No profile with name '" +:+ n +:+ "' found"
        end.
Proof.
  unfold resolve_profile, default_profile_path, path_from_name.
  destruct (arg_profile args) as [n|];
    repeat (match goal with
            | |- context [match ?x with _ => _ end] => destruct x
            end; try discriminate);
    now intros [= <-].
Qed.

(** When the profile cannot be resolved the script prints one line and
    nothing else, not even the prompt: [Error: No Firefox profiles found in
    directory structure] without a profile argument, [Error: No profile with
    name '<name>' found] with one; it reads no database, changes no file and
    leaves with status 1. *)
Theorem unresolved_profile_is_reported (home : path)
    (unicode_lower : string -> string)
    (XDG_CACHE_HOME : option string) (tmpdir : path)
    (select_bookmarks : list byte -> result (list row))
    (select_icon : list byte -> option string -> result (option (list byte)))
    (listing : list entry) (registry : option (list section))
    (describe : exn -> string) (args : arguments) (w : world) (e : exn)
    (Hfail : resolve_profile home unicode_lower listing registry args
             = Raise e) :
  let msg := match arg_profile args with
             | None => "No Firefox profiles found in directory structure"
             | Some n => "No profile with name '" +:+ n +:+ "' found"
             end in
  e = Exception msg
  /\ list_bookmarks home unicode_lower XDG_CACHE_HOME tmpdir select_bookmarks
       select_icon listing registry describe args w
     = (printed w ["Error: " +:+ msg], Ok 1).
Proof.
  cbv zeta. pose proof (resolve_profile_raises _ _ _ _ _ _ Hfail) as He.
  split; [exact He|].
  rewrite (list_bookmarks_unresolved _ _ _ _ _ _ _ _ _ _ _ _ Hfail).
  subst e. reflexivity.
Qed.

Lemma unresolved_profile_is_reported_witness :
  let args := {| arg_path := ""; arg_separator := " / ";
                 arg_profile := Some "work" |} in
  let msg := "No profile with name '" +:+ "work" +:+ "' found" in
  Exception "No profile with name 'work' found" = Exception msg
  /\ list_bookmarks (Root "/home/u") (fun s => s) None (Root "/tmp")
       (fun _ => Ok []) (fun _ _ => Ok None) [] None (fun _ => "") args
       bare_home
     = (printed bare_home ["Error: " +:+ msg], Ok 1).
Proof.
  exact (unresolved_profile_is_reported (Root "/home/u") (fun s => s) None
           (Root "/tmp") (fun _ => Ok []) (fun _ _ => Ok None) [] None
           (fun _ => "")
           {| arg_path := ""; arg_separator := " / ";
              arg_profile := Some "work" |}
           bare_home (Exception "No profile with name 'work' found")
           eq_refl).
Defined.

(** A profile directory that was discovered through its [prefs.js] and holds
    no [places.sqlite], and a machine with that directory. *)
Definition prefs_only_profile : entry :=
  {| name := "work.default-release"; is_dir := true; has_places := false;
     has_prefs := true; st_mtime := 100 |}.

Definition prefs_only_world : world :=
  {| fs := {[ Root "/home/u" := Dir;
              firefox_dir (Root "/home/u") := Dir;
              firefox_dir (Root "/home/u") // "work.default-release" := Dir;
              firefox_dir (Root "/home/u") // "work.default-release"
                // "prefs.js" := File [] ]};
     next_conn := 0; open_conns := ∅; stdout := [] |}.

(** When the resolved profile holds no [places.sqlite] (a directory found
    through its [prefs.js] or through [profiles.ini] may not) the script
    prints the prompt line, then [Error: places.sqlite not found in profile:
    <profile path>], changes no file, opens no connection and leaves with
    status 1. *)
Theorem missing_places_is_reported (home : path)
    (unicode_lower : string -> string)
    (XDG_CACHE_HOME : option string) (tmpdir : path)
    (select_bookmarks : list byte -> result (list row))
    (select_icon : list byte -> option string -> result (option (list byte)))
    (listing : list entry) (registry : option (list section))
    (describe : exn -> string) (args : arguments) (w : world) (p : path)
    (Hfound : resolve_profile home unicode_lower listing registry args = Ok p)
    (Hmissing : fs w !! (p // "places.sqlite") = None) :
  list_bookmarks home unicode_lower XDG_CACHE_HOME tmpdir select_bookmarks
    select_icon listing registry describe args w
  = (printed w [NUL +:+ "prompt";
                "Error: places.sqlite not found in profile: " +:+ str p],
     Ok 1).
Proof.
  rewrite (list_bookmarks_resolved _ _ _ _ _ _ _ _ _ _ _ _ Hfound).
  unfold write_rofi_input. rewrite bind_path_exists. cbn [fs printed].
  rewrite Hmissing, bool_decide_eq_false_2 by (now intros [? ?]).
  cbn [negb raise str_exn]. unfold printed. cbn [fs next_conn open_conns stdout].
  now rewrite <- app_assoc.
Qed.

Lemma missing_places_is_reported_witness :
  list_bookmarks (Root "/home/u") (fun s => s) None (Root "/tmp")
    (fun _ => Ok []) (fun _ _ => Ok None) [prefs_only_profile] None
    (fun _ => "")
    {| arg_path := ""; arg_separator := " / "; arg_profile := None |}
    prefs_only_world
  = (printed prefs_only_world
       [NUL +:+ "prompt";
        "Error: places.sqlite not found in profile: "
        +:+ str (firefox_dir (Root "/home/u") // "work.default-release")],
     Ok 1).
Proof.
  apply (missing_places_is_reported (Root "/home/u") (fun s => s) None
           (Root "/tmp") (fun _ => Ok []) (fun _ _ => Ok None)
           [prefs_only_profile] None (fun _ => "")
           {| arg_path := ""; arg_separator := " / "; arg_profile := None |}
           prefs_only_world
           (firefox_dir (Root "/home/u") // "work.default-release")).
  - reflexivity.
  - vm_compute. reflexivity.
Defined.

(** ** Edge behaviour of the filter *)

Lemma all_match_outcome search_path : forall arr,
  (exists m rest, all_match search_path arr = Ok (m, rest))
  \/ (all_match search_path arr = Raise RuntimeError
      /\ (length arr < length search_path)%nat
      /\ arr = Some <$> take (length arr) search_path).
Proof.
  induction search_path as [|name sp IH]; intros arr; cbn [all_match].
  - left. eauto.
  - destruct arr as [|t arr].
    + right. repeat split. cbn. lia.
    + destruct (decide (t = Some name)) as [->|Hne]; [|left; eauto].
      destruct (IH arr) as [H|(E & Hlen & Harr)]; [now left|].
      right. split; [exact E|]. split; [cbn; lia|].
      cbn. now rewrite <- Harr.
Qed.

Lemma all_match_short search_path : forall arr,
  (length arr < length search_path)%nat ->
  arr = Some <$> take (length arr) search_path ->
  all_match search_path arr = Raise RuntimeError.
Proof.
  induction search_path as [|name sp IH]; intros arr Hlen Harr.
  - cbn in Hlen. lia.
  - destruct arr as [|t arr]; [reflexivity|].
    cbn in Hlen, Harr. injection Harr as -> Harr.
    cbn [all_match]. rewrite decide_True by reflexivity.
    apply IH; [lia|assumption].
Qed.

(** The comparison with the search path runs out of path exactly when the
    resolved path is a proper prefix of the search path, and then it raises
    [RuntimeError] (the [StopIteration] of [next] inside the generator
    expression); it raises nothing else.  For a bookmark row this is the one
    way in which the filter raises [RuntimeError], so a search path that
    continues below a bookmark ends the listing with an error instead of
    skipping the bookmark. *)
Theorem all_match_runs_out (m : gmap Z (option string * Z))
    (search_path : list string) (sep : string) (r : row)
    (arr : list (option string)) :
  let short := (length arr < length search_path)%nat
               /\ arr = Some <$> take (length arr) search_path in
  (all_match search_path arr = Raise RuntimeError <-> short)
  /\ (forall e, all_match search_path arr = Raise e -> e = RuntimeError)
  /\ all_match search_path arr <> Diverge
  /\ (path_arr m (r_id r) = Ok arr ->
      (accepts m search_path sep r = Raise RuntimeError <-> short)
      /\ (short -> r_type r = 1 -> forall home xdg si fa fav w,
            write_row home xdg si m fa fav search_path sep r w
            = (w, Raise RuntimeError))).
Proof.
  cbv zeta.
  assert (H1 : all_match search_path arr = Raise RuntimeError
               <-> (length arr < length search_path)%nat
                   /\ arr = Some <$> take (length arr) search_path).
  { split.
    - intros E. destruct (all_match_outcome search_path arr)
        as [(b & rest & E')|(_ & H)]; [congruence|exact H].
    - intros [Hlen Harr]. now apply all_match_short. }
  split; [exact H1|]. split; [|split].
  - intros e E. destruct (all_match_outcome search_path arr)
      as [(b & rest & E')|(E' & _)]; congruence.
  - destruct (all_match_outcome search_path arr)
      as [(b & rest & E')|(E' & _)]; congruence.
  - intros Hpath.
    assert (H2 : accepts m search_path sep r = Raise RuntimeError
                 <-> (length arr < length search_path)%nat
                     /\ arr = Some <$> take (length arr) search_path).
    { rewrite <- H1. unfold accepts. rewrite Hpath. cbn.
      destruct (all_match search_path arr) as [[[] rest]|e|]; cbn;
        try (split; congruence).
      unfold join. destruct (all_str rest); cbn; split; congruence. }
    split; [exact H2|].
    intros Hshort Ht home xdg si fa fav w. unfold write_row.
    rewrite Ht. cbn [Z.eqb Pos.eqb]. rewrite bind_unfold.
    apply H2 in Hshort. unfold lift. now rewrite Hshort.
Qed.

Lemma all_match_keeps_last search_path : forall arr rest,
  all_match search_path (arr ++ [None]) = Ok (true, rest) ->
  exists rest', rest = rest' ++ [None].
Proof.
  induction search_path as [|name sp IH]; intros arr rest; cbn [all_match].
  - intros [= <-]. eauto.
  - destruct arr as [|t arr]; cbn.
    + rewrite decide_False by discriminate. discriminate.
    + destruct (decide (t = Some name)); [apply IH|discriminate].
Qed.

Lemma all_str_absent items : all_str (items ++ [None]) = None.
Proof.
  induction items as [|[s|] items IH]; cbn; [reflexivity| |reflexivity].
  now rewrite IH.
Qed.

Lemma parent_generator_first m i t p l :
  1 < i -> m !! i = Some (t, p) -> parent_generator m i = Ok l ->
  exists l', l = t :: l'.
Proof.
  intros Hi Hm. unfold parent_generator. cbn [parent_generator_fuel].
  destruct (Z.gtb_spec i 1); [|lia]. rewrite Hm.
  destruct (parent_generator_fuel m (size m) p) as [l'| |]; cbn; [|discriminate..].
  intros [= <-]. eauto.
Qed.

(** A bookmark whose title is NULL is never printed (unless its id is the
    root's or below): its resolved path ends with that missing title, which
    no name of the search path equals, so either the filter rejects the
    bookmark or [sep.join] meets the missing title and raises [TypeError].
    With the empty search path it is always the [TypeError], which ends the
    listing. *)
Theorem untitled_bookmark_never_accepted (m : gmap Z (option string * Z))
    (search_path : list string) (sep : string) (r : row) (p : Z)
    (Hid : 1 < r_id r) (Htitle : m !! r_id r = Some (None, p)) :
  accepts m search_path sep r <> Ok true
  /\ (forall l, chain m (r_id r) l -> accepts m [] sep r = Raise TypeError).
Proof.
  assert (Hlast : forall arr, path_arr m (r_id r) = Ok arr ->
                    exists arr', arr = arr' ++ [None]).
  { unfold path_arr. intros arr.
    destruct (parent_generator m (r_id r)) as [l| |] eqn:E; cbn; [|discriminate..].
    intros [= <-].
    destruct (parent_generator_first _ _ _ _ _ Hid Htitle E) as [l' ->].
    cbn. eauto. }
  split.
  - unfold accepts.
    destruct (path_arr m (r_id r)) as [arr| |] eqn:E; cbn; [|discriminate..].
    destruct (Hlast arr eq_refl) as [arr' ->].
    destruct (all_match search_path (arr' ++ [None])) as [[[] rest]|e|] eqn:Em;
      cbn; try discriminate.
    destruct (all_match_keeps_last _ _ _ Em) as [rest' ->].
    unfold join. now rewrite all_str_absent.
  - intros l Hchain. unfold accepts.
    rewrite (path_arr_chain _ _ _ Hchain). cbn.
    destruct (Hlast _ (path_arr_chain _ _ _ Hchain)) as [arr' ->].
    unfold join. now rewrite all_str_absent.
Qed.

Lemma untitled_bookmark_never_accepted_witness :
  accepts {[ 100 := (None, 1) ]} ["Work"] " / "
    {| r_id := 100; r_parent := 1; r_type := 1; r_title := None;
       r_url := Some "https://example.com" |} <> Ok true
  /\ (forall l, chain {[ 100 := (None, 1) ]} 100 l ->
        accepts {[ 100 := (None, 1) ]} [] " / "
          {| r_id := 100; r_parent := 1; r_type := 1; r_title := None;
             r_url := Some "https://example.com" |} = Raise TypeError).
Proof.
  apply (untitled_bookmark_never_accepted {[ 100 := (None, 1) ]} ["Work"] " / "
           {| r_id := 100; r_parent := 1; r_type := 1; r_title := None;
              r_url := Some "https://example.com" |} 1).
  - cbn. lia.
  - reflexivity.
Defined.

(** ** The parent index and the walk *)

Lemma find_app {A} (f : A -> bool) (l1 l2 : list A) :
  List.find f (l1 ++ l2)
  = match List.find f l1 with
    | Some x => Some x
    | None => List.find f l2
    end.
Proof.
  induction l1 as [|x l1 IH]; [reflexivity|].
  cbn. now destruct (f x).
Qed.

Lemma by_id_fold rows : forall (m0 : gmap Z (option string * Z)) i,
  fold_left (fun m r => <[r_id r := (r_title r, r_parent r)]> m) rows m0 !! i
  = match List.find (fun r => r_id r =? i) (rev rows) with
    | Some r => Some (r_title r, r_parent r)
    | None => m0 !! i
    end.
Proof.
  induction rows as [|r rows IH]; intros m0 i; [reflexivity|].
  cbn [fold_left rev]. rewrite IH, find_app.
  destruct (List.find _ (rev rows)); [reflexivity|]. cbn [List.find].
  destruct (Z.eqb_spec (r_id r) i) as [->|Hne].
  - now rewrite lookup_insert_eq.
  - now rewrite lookup_insert_ne.
Qed.

(** The index built from the rows maps an id to the title and parent of the
    last row with that id; an id that no row has is not a key, so a walk
    that arrives there raises [KeyError]; and a row that is alone with its
    id is found as it is. *)
Theorem by_id_of_last_row (rows : list row) (i : Z) :
  by_id_of rows !! i
  = (fun r => (r_title r, r_parent r))
    <$> List.find (fun r => r_id r =? i) (rev rows)
  /\ (by_id_of rows !! i = None <-> Forall (fun r => r_id r <> i) rows)
  /\ (forall r pre post,
        rows = pre ++ r :: post -> r_id r = i ->
        Forall (fun q => r_id q <> i) post ->
        by_id_of rows !! i = Some (r_title r, r_parent r))
  /\ (1 < i -> Forall (fun r => r_id r <> i) rows ->
      parent_generator (by_id_of rows) i = Raise KeyError).
Proof.
  assert (E : by_id_of rows !! i
              = (fun r => (r_title r, r_parent r))
                <$> List.find (fun r => r_id r =? i) (rev rows)).
  { unfold by_id_of. rewrite by_id_fold.
    now destruct (List.find _ (rev rows)). }
  assert (Hnone : by_id_of rows !! i = None
                  <-> Forall (fun r => r_id r <> i) rows).
  { rewrite E. split.
    - intros H. destruct (List.find _ (rev rows)) eqn:F; [discriminate|].
      apply Forall_forall. intros r Hr Hi.
      assert (Hf : (r_id r =? i) = false).
      { apply (find_none _ _ F r). apply in_rev. rewrite rev_involutive.
        now apply list_elem_of_In. }
      apply Z.eqb_eq in Hi. congruence.
    - intros H. destruct (List.find _ (rev rows)) as [r|] eqn:F; [|reflexivity].
      apply find_some in F as [Hin Hi]. apply Z.eqb_eq in Hi.
      rewrite Forall_forall in H. exfalso. apply (H r); [|assumption].
      apply list_elem_of_In. now apply in_rev. }
  split; [exact E|]. split; [exact Hnone|]. split.
  - intros r pre post -> Hr Hpost. rewrite E.
    rewrite rev_app_distr. cbn [rev]. rewrite <- app_assoc, find_app.
    destruct (List.find _ (rev post)) as [q|] eqn:F.
    + apply find_some in F as [Hin Hq]. apply Z.eqb_eq in Hq.
      rewrite Forall_forall in Hpost. exfalso. apply (Hpost q); [|assumption].
      apply list_elem_of_In. now apply in_rev.
    + cbn. apply Z.eqb_eq in Hr. now rewrite Hr.
  - intros Hi Hrows. apply Hnone in Hrows.
    unfold parent_generator. cbn [parent_generator_fuel].
    destruct (Z.gtb_spec i 1); [|lia]. now rewrite Hrows.
Qed.

(** [reaches m i j]: the walk that starts at [i] arrives at [j]. *)
Inductive reaches (m : gmap Z (option string * Z)) : Z -> Z -> Prop :=
| reaches_here i : reaches m i i
| reaches_step i t p j :
    1 < i -> m !! i = Some (t, p) -> reaches m p j -> reaches m i j.

Lemma parent_generator_fuel_raises m fuel : forall i e,
  parent_generator_fuel m fuel i = Raise e ->
  e = KeyError /\ exists j, reaches m i j /\ 1 < j /\ m !! j = None.
Proof.
  induction fuel as [|fuel IH]; intros i e; cbn [parent_generator_fuel];
    destruct (Z.gtb_spec i 1) as [Hi|Hi]; try discriminate.
  destruct (m !! i) as [[t p]|] eqn:Hm.
  - destruct (parent_generator_fuel m fuel p) as [l|e'|] eqn:E; cbn;
      [discriminate| |discriminate].
    intros [= <-]. destruct (IH _ _ E) as (-> & j & Hr & Hj & Hn).
    split; [reflexivity|]. exists j. split; [|now split].
    econstructor; eassumption.
  - intros [= <-]. split; [reflexivity|]. exists i.
    split; [constructor|now split].
Qed.

Lemma reaches_missing m i j :
  reaches m i j -> 1 < j -> m !! j = None ->
  exists n, hops m i n
    /\ forall fuel, (n <= fuel)%nat ->
         parent_generator_fuel m fuel i = Raise KeyError.
Proof.
  induction 1 as [i|i t p j Hi Hm Hr IH]; intros Hj Hn.
  - exists 1%nat. split; [now constructor|]. intros [|fuel] Hf; [lia|].
    cbn [parent_generator_fuel]. destruct (Z.gtb_spec i 1); [|lia].
    now rewrite Hn.
  - destruct (IH Hj Hn) as (n & Hh & Hfuel). exists (S n).
    split; [econstructor; eassumption|]. intros [|fuel] Hf; [lia|].
    cbn [parent_generator_fuel]. destruct (Z.gtb_spec i 1); [|lia].
    rewrite Hm, Hfuel by lia. reflexivity.
Qed.

Lemma hops_self_parent m i t : 1 < i -> m !! i = Some (t, i) ->
  forall n, ~ hops m i n.
Proof.
  intros Hi Hm n. induction n as [|n IH]; intros H; inversion H; subst;
    try lia; congruence.
Qed.

(** The walk up the tree gives an answer, a list of titles or an exception,
    exactly when it comes to an end: when it arrives at an id that is at most
    1 or that is not a key.  The only exception is [KeyError], raised exactly
    when the walk arrives at an id above 1 that is not a key.  On a cycle,
    such as an item that is its own parent, the loop never ends. *)
Theorem parent_generator_ends (m : gmap Z (option string * Z)) (i : Z) :
  (parent_generator m i <> Diverge <-> exists n, hops m i n)
  /\ (forall e, parent_generator m i = Raise e -> e = KeyError)
  /\ (parent_generator m i = Raise KeyError
      <-> exists j, reaches m i j /\ 1 < j /\ m !! j = None)
  /\ (forall t, 1 < i -> m !! i = Some (t, i) -> parent_generator m i = Diverge).
Proof.
  assert (Hends : parent_generator m i <> Diverge <-> exists n, hops m i n).
  { split.
    - intros H. destruct (parent_generator_fuel_hops _ _ _ H) as (n & _ & Hn).
      eauto.
    - intros [n Hn]. unfold parent_generator.
      apply (parent_generator_fuel_stable _ _ _ Hn (S (size m)) (S (size m)));
        eapply hops_bound; eassumption. }
  split; [exact Hends|]. split; [|split].
  - intros e E. now apply parent_generator_fuel_raises in E as [-> _].
  - split.
    + intros E. now apply parent_generator_fuel_raises in E as [_ H].
    + intros (j & Hr & Hj & Hn).
      destruct (reaches_missing _ _ _ Hr Hj Hn) as (n & Hh & Hfuel).
      apply Hfuel. eapply hops_bound; eassumption.
  - intros t Hi Hm.
    assert (Hcases : parent_generator m i = Diverge
                     \/ parent_generator m i <> Diverge)
      by (destruct (parent_generator m i); (now left) || (now right)).
    destruct Hcases as [E|Hnd]; [exact E|].
    apply Hends in Hnd as [n Hn].
    destruct (hops_self_parent _ _ _ Hi Hm n Hn).
Qed.

(** ** Splitting and joining *)

(** The number of times [c] occurs in [s]. *)
Fixpoint count_char (c : ascii) (s : string) : nat :=
  match s with
  | EmptyString => 0
  | String x s' => (if Ascii.eqb x c then 1 else 0) + count_char c s'
  end.

Lemma join_push sep x w ws :
  PyStr.join sep (String x w :: ws) = String x (PyStr.join sep (w :: ws)).
Proof. destruct ws; [reflexivity|]. cbn [PyStr.join]. apply append_cons. Qed.

Lemma join_cons sep x l :
  l <> [] -> PyStr.join sep (x :: l) = x +:+ sep +:+ PyStr.join sep l.
Proof. destruct l; [congruence|reflexivity]. Qed.

Lemma split_piece c s :
  PyStr.contains (String c "") s = false -> PyStr.split c s = [s].
Proof.
  induction s as [|x s IH]; [reflexivity|].
  cbn [PyStr.contains PyStr.startswith PyStr.split].
  destruct (Ascii.eqb_spec c x) as [E|Hx]; [discriminate|].
  cbn [andb orb]. intros Hs. rewrite (IH Hs).
  destruct (Ascii.eqb_spec x c) as [E|_]; [congruence|reflexivity].
Qed.

Lemma split_join c l :
  l <> [] -> Forall (fun t => PyStr.contains (String c "") t = false) l ->
  PyStr.split c (PyStr.join (String c "") l) = l.
Proof.
  induction l as [|x l IH]; [congruence|]. intros _ H.
  inversion H as [|? ? Hx Hl]; subst.
  destruct l as [|y l]; [now apply split_piece|].
  rewrite join_cons by discriminate.
  change (String c "" +:+ PyStr.join (String c "") (y :: l))
    with (String c (PyStr.join (String c "") (y :: l))).
  rewrite split_app, (split_piece _ _ Hx), IH by (discriminate || assumption).
  reflexivity.
Qed.

(** [str.split] on one character and [str.join] are inverse to each other:
    joining the pieces of a string with the separator gives the string back,
    there is one piece more than there are separators in it, no piece holds
    the separator, and splitting the join of such pieces gives the pieces
    back. *)
Theorem split_join_round_trip (c : ascii) (s : string) :
  PyStr.join (String c "") (PyStr.split c s) = s
  /\ length (PyStr.split c s) = S (count_char c s)
  /\ Forall (fun t => PyStr.contains (String c "") t = false) (PyStr.split c s)
  /\ (forall l, l <> [] ->
        Forall (fun t => PyStr.contains (String c "") t = false) l ->
        PyStr.split c (PyStr.join (String c "") l) = l).
Proof.
  split; [|split; [|split; [apply split_pieces|apply split_join]]].
  - induction s as [|x s IH]; [reflexivity|]. cbn [PyStr.split].
    pose proof (split_nonempty c s) as Hne.
    destruct (Ascii.eqb_spec x c) as [->|Hx].
    + rewrite join_cons by assumption. now rewrite IH.
    + destruct (PyStr.split c s) as [|t ts]; [congruence|].
      now rewrite join_push, IH.
  - induction s as [|x s IH]; [reflexivity|]. cbn [PyStr.split count_char].
    pose proof (split_nonempty c s) as Hne.
    destruct (Ascii.eqb x c); cbn [length]; [now rewrite IH|].
    destruct (PyStr.split c s) as [|t ts]; [congruence|].
    cbn [length] in *. lia.
Qed.

Lemma search_path_of_join segs :
  Forall (fun s => segment s /\ s <> "") segs ->
  search_path_of (PyStr.join "/" segs) = segs.
Proof.
  induction 1 as [|s segs [Hs Hne] Hrest IH]; [reflexivity|].
  destruct segs as [|s' segs]; [now apply search_path_of_segment|].
  rewrite join_cons by discriminate.
  rewrite search_path_of_app, IH, (search_path_of_segment s Hs Hne).
  reflexivity.
Qed.

(** The search path is a normal form of the path argument: written out with
    single slashes it parses to itself, so normalising twice changes
    nothing, and any list of non-empty names without a slash is the search
    path of its join. *)
Theorem search_path_of_round_trip (p : string) :
  search_path_of (PyStr.join "/" (search_path_of p)) = search_path_of p
  /\ (forall segs, Forall (fun s => segment s /\ s <> "") segs ->
        search_path_of (PyStr.join "/" segs) = segs)
  /\ (search_path_of p = [] <-> p = PyStr.repeat_char "/" (String.length p)).
Proof.
  split; [|split].
  - apply search_path_of_join, search_path_of_pieces.
  - exact search_path_of_join.
  - split; [|intros ->; apply search_path_of_only_slashes].
    induction p as [|x p IH]; [reflexivity|].
    destruct (Ascii.eqb_spec x "/"%char) as [->|Hx].
    + change (String "/" p) with ("/" +:+ p).
      rewrite search_path_of_leading. intros H.
      change ("/" +:+ p) with (String "/" p).
      cbn [String.length PyStr.repeat_char]. f_equal. now apply IH.
    + unfold search_path_of. cbn [PyStr.split].
      destruct (Ascii.eqb_spec x "/"%char) as [E|_]; [contradiction|].
      pose proof (split_nonempty "/" p) as Hne.
      destruct (PyStr.split "/" p) as [|t ts]; [congruence|].
      cbn. discriminate.
Qed.

(** ** What a run leaves alone *)

(** [keeps q c]: whatever [c] does, what the path [q] leads to afterwards is
    what it led to before. *)
Definition keeps (q : path) {A} (c : io A) : Prop :=
  forall w, fs (c w).1 !! q = fs w !! q.

(** [q] is an entry of the directory [d]. *)
Definition child_of (d q : path) : Prop := exists s, q = d // s.

Lemma keeps_bind q {A B} (c : io A) (k : A -> io B) :
  keeps q c -> (forall a, keeps q (k a)) -> keeps q (c ≫= k).
Proof.
  intros Hc Hk w. rewrite bind_unfold. specialize (Hc w).
  destruct (c w) as [w' [a| |]]; cbn [fst snd] in *; auto.
  now rewrite Hk.
Qed.

Lemma keeps_mret q {A} (a : A) : keeps q (mret a).
Proof. now intros w. Qed.

Lemma keeps_lift q {A} (r : result A) : keeps q (lift r).
Proof. now intros w. Qed.

Lemma keeps_raise q {A} e : keeps q (raise (A := A) e).
Proof. now intros w. Qed.

Lemma keeps_print q s : keeps q (print s).
Proof. now intros w. Qed.

Lemma keeps_path_exists q p : keeps q (path_exists p).
Proof. now intros w. Qed.

Lemma keeps_mkdir q p : q <> p -> keeps q (mkdir p).
Proof.
  intros Hq w. unfold mkdir. destruct (fs w !! p); [reflexivity|].
  destruct (fs w !! parent p) as [[]|]; try reflexivity.
  cbn [fst fs set_fs]. now rewrite lookup_insert_ne.
Qed.

Lemma keeps_write_bytes q p data : q <> p -> keeps q (write_bytes p data).
Proof.
  intros Hq w. unfold write_bytes.
  destruct (fs w !! parent p) as [[]|]; try reflexivity.
  destruct (fs w !! p) as [[]|]; try reflexivity;
    cbn [fst fs set_fs]; now rewrite lookup_insert_ne.
Qed.

Lemma keeps_copyfile q src dst : q <> dst -> keeps q (copyfile src dst).
Proof.
  intros Hq w. unfold copyfile. case_decide; [reflexivity|].
  destruct (fs w !! src) as [[]|]; try reflexivity.
  cbn [fst fs set_fs]. now rewrite lookup_insert_ne.
Qed.

Lemma keeps_connect q p : keeps q (connect p).
Proof. now intros w. Qed.

Lemma keeps_try_except q {A} (c h : io A) :
  keeps q c -> keeps q h -> keeps q (try_except c h).
Proof.
  intros Hc Hh w. unfold try_except. specialize (Hc w).
  destruct (c w) as [w' [a|e|]]; cbn [fst snd] in *; auto.
  now rewrite Hh.
Qed.

Lemma keeps_with_closing q {A} c (body : connection -> io A) :
  keeps q (body c) -> keeps q (with_closing c body).
Proof.
  intros H w. unfold with_closing. specialize (H w).
  destruct (body c w) as [w' [a|e|]]; exact H.
Qed.

Lemma keeps_temp_sqlite q {A} tmpdir src (body : connection -> io A) :
  ~ child_of tmpdir q -> (forall c, keeps q (body c)) ->
  keeps q (temp_sqlite tmpdir src body).
Proof.
  intros Hq H w. unfold temp_sqlite, with_NamedTemporaryFile.
  assert (Hne : q <> mktemp tmpdir w).
  { intros ->. apply Hq. unfold mktemp. now eexists. }
  set (c := copyfile src (mktemp tmpdir w) ≫= _).
  assert (Hc : keeps q c).
  { apply keeps_bind; [now apply keeps_copyfile|]. intros _.
    apply keeps_bind; [apply keeps_connect|]. intros conn.
    apply keeps_with_closing, H. }
  specialize (Hc (set_fs <[mktemp tmpdir w := File []]> w)).
  cbn [fs set_fs] in Hc. rewrite lookup_insert_ne in Hc by congruence.
  destruct (c _) as [w' [a|e|]]; cbn [fst fs set_fs] in *;
    rewrite ?lookup_delete_ne by congruence; exact Hc.
Qed.

Lemma keeps_for_each q {A} (l : list A) (f : A -> io unit) :
  (forall x, keeps q (f x)) -> keeps q (for_each l f).
Proof.
  intros H. induction l as [|x l IH]; [apply keeps_mret|].
  cbn [for_each]. apply keeps_bind; [apply H|]. now intros _.
Qed.

Lemma keeps_cache_icon q home xdg icon :
  q <> cache_dir home xdg -> q <> slot home xdg icon ->
  keeps q (cache_icon home xdg icon).
Proof.
  intros Hd Hs. unfold cache_icon. fold (slot home xdg icon).
  apply keeps_bind; [apply keeps_path_exists|]. intros there.
  apply keeps_bind.
  { destruct there; [apply keeps_mret|now apply keeps_mkdir]. }
  intros _. apply keeps_bind; [apply keeps_path_exists|]. intros present.
  apply keeps_bind; [|intros _; apply keeps_mret].
  destruct present; [apply keeps_mret|now apply keeps_write_bytes].
Qed.

Lemma keeps_fetch_icon q si c url : keeps q (fetch_icon si c url).
Proof. intros w. now rewrite fetch_icon_same. Qed.

Lemma keeps_write_row q home xdg si m fa fav sp sep r :
  q <> cache_dir home xdg -> ~ child_of (cache_dir home xdg) q ->
  keeps q (write_row home xdg si m fa fav sp sep r).
Proof.
  intros Hd Hs. unfold write_row.
  destruct (r_type r =? 1); [|apply keeps_mret].
  apply keeps_bind; [apply keeps_lift|]. intros []; [|apply keeps_mret].
  unfold emit. apply keeps_bind.
  - destruct fav as [c|]; [|apply keeps_mret].
    destruct fa; [|apply keeps_mret].
    apply keeps_try_except; [apply keeps_fetch_icon|apply keeps_mret].
  - intros [[|b data]|]; try apply keeps_print.
    apply keeps_bind; [|intros loc; apply keeps_print].
    apply keeps_cache_icon; [assumption|].
    intros ->. apply Hs. unfold slot. now eexists.
Qed.

Lemma keeps_fetch_bookmarks q sb c : keeps q (fetch_bookmarks sb c).
Proof.
  apply keeps_bind; [|intros data; apply keeps_lift].
  intros w. now rewrite database_content_same.
Qed.

(** The listing changes nothing outside its two work places: a path that is
    not an entry of the temporary directory and is neither the cache
    directory nor an entry of it leads to the same thing after the run as
    before, however the run ends.  So the profile and its databases are
    never modified. *)
Theorem write_rofi_input_keeps_files (home : path)
    (XDG_CACHE_HOME : option string) (tmpdir : path)
    (select_bookmarks : list byte -> result (list row))
    (select_icon : list byte -> option string -> result (option (list byte)))
    (profile_loc : path) (search_path : list string) (sep : string)
    (w : world) (q : path)
    (Htmp : ~ child_of tmpdir q)
    (Hcache : q <> cache_dir home XDG_CACHE_HOME)
    (Hicons : ~ child_of (cache_dir home XDG_CACHE_HOME) q) :
  fs (write_rofi_input home XDG_CACHE_HOME tmpdir select_bookmarks
        select_icon profile_loc search_path sep w).1 !! q
  = fs w !! q.
Proof.
  revert w. change (keeps q (write_rofi_input home XDG_CACHE_HOME tmpdir
    select_bookmarks select_icon profile_loc search_path sep)).
  unfold write_rofi_input.
  apply keeps_bind; [apply keeps_path_exists|].
  intros []; cbn [negb]; [|apply keeps_raise].
  apply keeps_bind.
  { apply keeps_temp_sqlite; [assumption|]. apply keeps_fetch_bookmarks. }
  intros rows. apply keeps_bind; [apply keeps_path_exists|].
  intros [].
  - apply keeps_temp_sqlite; [assumption|]. intros c.
    apply keeps_for_each. intros r. now apply keeps_write_row.
  - apply keeps_for_each. intros r. now apply keeps_write_row.
Qed.

Lemma write_rofi_input_keeps_files_witness :
  fs (example_listing ["Work"]).1 !! (example_profile // "places.sqlite")
  = fs example_world !! (example_profile // "places.sqlite").
Proof.
  apply (write_rofi_input_keeps_files (Root "/home/u") None (Root "/tmp")
           (fun _ => Ok example_rows) (fun _ _ => Ok None) example_profile
           ["Work"] " / " example_world (example_profile // "places.sqlite")).
  - intros [s H]. discriminate.
  - discriminate.
  - intros [s H]. discriminate.
Defined.

(** ** More on the favicon cache *)

Lemma cache_icon_outcome home xdg icon w :
  let out := cache_icon home xdg icon w in
  out.2 <> Diverge
  /\ (forall p, out.2 = Ok p ->
        is_Some (fs out.1 !! p)
        /\ is_Some (fs out.1 !! cache_dir home xdg)
        /\ (fs w !! p = None -> fs out.1 !! p = Some (File icon)))
  /\ (fs w !! cache_dir home xdg = None ->
      fs w !! parent (cache_dir home xdg) <> Some Dir ->
      out.1 = w /\ exists e, out.2 = Raise e).
Proof.
  cbv zeta. set (out := cache_icon home xdg icon w).
  assert (Hout : out = cache_icon home xdg icon w) by reflexivity.
  clearbody out. unfold cache_icon in Hout. fold (slot home xdg icon) in Hout.
  assert (Hne : cache_dir home xdg <> slot home xdg icon).
  { intros E. symmetry in E. now apply join_neq in E. }
  rewrite bind_path_exists in Hout.
  destruct (fs w !! cache_dir home xdg) as [d|] eqn:Hd.
  - rewrite bool_decide_eq_true_2 in Hout by eauto. cbn [negb] in Hout.
    rewrite bind_unfold in Hout. cbn [mret io_ret] in Hout.
    rewrite bind_path_exists in Hout.
    destruct (fs w !! slot home xdg icon) as [n|] eqn:Hs.
    + rewrite bool_decide_eq_true_2 in Hout by eauto. cbn in Hout.
      subst out. io_simpl. cbn [fst snd].
      split; [discriminate|]. split; [|discriminate].
      intros p [= <-]. rewrite Hs, Hd. split; [eauto|]. split; [eauto|].
      discriminate.
    + rewrite bool_decide_eq_false_2 in Hout by (now intros [? ?]).
      cbn [negb] in Hout. rewrite bind_unfold in Hout.
      unfold write_bytes in Hout.
      change (parent (slot home xdg icon)) with (cache_dir home xdg) in Hout.
      rewrite Hd, Hs in Hout. destruct d; cbn in Hout; subst out; io_simpl;
        cbn [fst snd fs set_fs]; (split; [discriminate|]);
        (split; [|discriminate]); intros p [= <-].
      rewrite lookup_insert_eq.
      rewrite lookup_insert_ne by congruence.
      rewrite Hd. eauto.
  - rewrite bool_decide_eq_false_2 in Hout by (now intros [? ?]).
    cbn [negb] in Hout. rewrite bind_unfold in Hout.
    unfold mkdir in Hout. rewrite Hd in Hout.
    destruct (fs w !! parent (cache_dir home xdg)) as [[|data]|] eqn:Hp;
      [|subst out; io_simpl; cbn [fst snd];
        split; [discriminate|]; split; [discriminate|]; eauto..].
    rewrite bind_path_exists in Hout. cbn [fs set_fs] in Hout.
    rewrite lookup_insert_ne in Hout by congruence.
    destruct (fs w !! slot home xdg icon) as [n|] eqn:Hs.
    + rewrite bool_decide_eq_true_2 in Hout by eauto. cbn in Hout.
      subst out. io_simpl. cbn [fst snd fs set_fs].
      split; [discriminate|]. split; [|intros _ H; now destruct H].
      intros p [= <-]. rewrite lookup_insert_ne by congruence.
      rewrite lookup_insert_eq, Hs. split; [eauto|]. split; [eauto|].
      discriminate.
    + rewrite bool_decide_eq_false_2 in Hout by (now intros [? ?]).
      cbn [negb] in Hout. rewrite bind_unfold in Hout.
      unfold write_bytes in Hout.
      change (parent (slot home xdg icon)) with (cache_dir home xdg) in Hout.
      cbn [fs set_fs] in Hout. rewrite lookup_insert_eq in Hout.
      rewrite lookup_insert_ne in Hout by congruence. rewrite Hs in Hout.
      cbn in Hout. subst out. io_simpl. cbn [fst snd fs set_fs].
      split; [discriminate|]. split; [|intros _ H; now destruct H].
      intros p [= <-]. rewrite lookup_insert_eq.
      rewrite lookup_insert_ne by congruence. rewrite lookup_insert_eq.
      eauto.
Qed.

(** What [cache_icon] does to the machine: it prints nothing; the only paths
    it can change are the cache directory and the file named after the
    digest; when it returns a path, that path exists and so does the cache
    directory, and a file that was not there before holds the icon; it does
    not create missing parents, so when the cache directory is missing and
    its parent is not a directory it raises and changes nothing. *)
Theorem cache_icon_effects (home : path) (xdg : option string)
    (icon : list byte) (w : world) :
  let out := cache_icon home xdg icon w in
  stdout out.1 = stdout w
  /\ (forall q, q <> cache_dir home xdg -> q <> slot home xdg icon ->
        fs out.1 !! q = fs w !! q)
  /\ out.2 <> Diverge
  /\ (forall p, out.2 = Ok p ->
        p = slot home xdg icon
        /\ is_Some (fs out.1 !! p)
        /\ is_Some (fs out.1 !! cache_dir home xdg)
        /\ (fs w !! p = None -> fs out.1 !! p = Some (File icon)))
  /\ (fs w !! cache_dir home xdg = None ->
      fs w !! parent (cache_dir home xdg) <> Some Dir ->
      out.1 = w /\ exists e, out.2 = Raise e).
Proof.
  cbv zeta. destruct (cache_icon_outcome home xdg icon w) as (H1 & H2 & H3).
  split; [apply silent_cache_icon|].
  split; [intros q Hd Hs; now apply keeps_cache_icon|].
  split; [exact H1|]. split; [|exact H3].
  intros p Hp. split; [now apply cache_icon_returns_slot in Hp|].
  now apply H2.
Qed.

(** ** The listing without favicons *)

Lemma for_each_plain home xdg si m sp sep rows :
  Forall (fun r => r_type r = 1 -> exists b, accepts m sp sep r = Ok b) rows ->
  forall w,
    let out := for_each rows (write_row home xdg si m false None sp sep) w in
    out.2 = Ok tt
    /\ stdout out.1
       = stdout w ++ ((fun r => format_line r None) <$> List.filter (shown m sp sep) rows)
    /\ fs out.1 = fs w.
Proof.
  induction 1 as [|r rows Hr Hrows IH]; intros w; cbv zeta.
  - cbn. now rewrite app_nil_r.
  - assert (Hstep :
      for_each (r :: rows) (write_row home xdg si m false None sp sep) w
      = for_each rows (write_row home xdg si m false None sp sep)
          (if shown m sp sep r then (print (format_line r None) w).1 else w)).
    { cbn [for_each]. rewrite bind_unfold. unfold write_row at 1, shown.
      destruct (Z.eqb_spec (r_type r) 1) as [Ht|_]; cbn [andb];
        [|reflexivity].
      destruct (Hr Ht) as [b Hb]. rewrite bind_unfold, Hb. unfold lift.
      now destruct b. }
    rewrite Hstep. cbn [List.filter].
    destruct (shown m sp sep r); [|apply IH].
    destruct (IH (print (format_line r None) w).1) as (E1 & E2 & E3).
    cbv zeta in *. split; [exact E1|]. split; [|exact E3].
    rewrite E2. cbn [print fst stdout fmap list_fmap].
    now rewrite <- app_assoc.
Qed.

(** Without a favicons database, and when the filter raises on no bookmark,
    the listing is complete and exact: it ends normally, it prints one line
    without icon field for each bookmark row that the filter accepts, in the
    order of the query and nothing else, and it leaves the files as they
    were. *)
Theorem listing_without_favicons (home : path)
    (XDG_CACHE_HOME : option string) (tmpdir : path)
    (select_bookmarks : list byte -> result (list row))
    (select_icon : list byte -> option string -> result (option (list byte)))
    (profile_loc : path) (search_path : list string) (sep : string)
    (w : world) (data : list byte) (rows : list row)
    (Hplaces : fs w !! (profile_loc // "places.sqlite") = Some (File data))
    (Hrows : select_bookmarks data = Ok rows)
    (Hfavicons : fs w !! (profile_loc // "favicons.sqlite") = None)
    (Hfilter : Forall (fun r => r_type r = 1 ->
                 exists b, accepts (by_id_of rows) search_path sep r = Ok b)
                 rows) :
  let out := write_rofi_input home XDG_CACHE_HOME tmpdir select_bookmarks
               select_icon profile_loc search_path sep w in
  out.2 = Ok tt
  /\ stdout out.1
     = stdout w ++ ((fun r => format_line r None)
                    <$> List.filter (shown (by_id_of rows) search_path sep) rows)
  /\ fs out.1 = fs w.
Proof.
  cbv zeta. unfold write_rofi_input. rewrite bind_path_exists.
  rewrite Hplaces, bool_decide_eq_true_2 by eauto. cbn [negb].
  rewrite bind_unfold.
  destruct (temp_sqlite_fetch_ok tmpdir _ _ _ _ _ Hplaces Hrows)
    as (w1 & -> & Hfs & Hout).
  rewrite bind_path_exists, Hfs, Hfavicons.
  rewrite bool_decide_eq_false_2 by (now intros [? ?]).
  destruct (for_each_plain home XDG_CACHE_HOME select_icon _ _ _ _ Hfilter w1)
    as (E1 & E2 & E3).
  cbv zeta in *. now rewrite E1, E2, E3, Hfs, Hout.
Qed.

Lemma listing_without_favicons_witness :
  (example_listing ["Work"]).2 = Ok tt
  /\ stdout (example_listing ["Work"]).1
     = stdout example_world
       ++ ((fun r => format_line r None)
           <$> List.filter (shown (by_id_of example_rows) ["Work"] " / ")
                 example_rows)
  /\ fs (example_listing ["Work"]).1 = fs example_world.
Proof.
  apply (listing_without_favicons (Root "/home/u") None (Root "/tmp")
           (fun _ => Ok example_rows) (fun _ _ => Ok None) example_profile
           ["Work"] " / " example_world [x53; x51; x4c] example_rows).
  - vm_compute. reflexivity.
  - reflexivity.
  - vm_compute. reflexivity.
  - repeat (constructor;
              [intros H; first [discriminate H | (vm_compute; eauto)]|]).
    constructor.
Defined.

(** ** Icons in the listing *)

(** A profile's favicon snapshot that is open, next to an empty cache. *)
Definition icon_world : world :=
  {| fs := {[ Root "/home/u" // ".cache" := Dir;
              Root "/tmp" // "favicons" := File [x53] ]};
     next_conn := 1; open_conns := {[ 0%nat ]}; stdout := [] |}.

Definition icon_conn : connection :=
  {| conn_id := 0; database := Root "/tmp" // "favicons" |}.

(** What the printing step does with the answer of the icon query.  An icon
    that is NULL or empty counts as no icon: the line is printed without the
    icon field and the cache is not touched.  Any other icon is cached first:
    where the cache can take it, the line carries the path of the cached
    file, which then holds the icon; where [cache_icon] raises, the
    exception leaves the printing step (it is outside the [try]) and the
    bookmark's line is not printed. *)
Theorem emit_with_icon (home : path) (xdg : option string)
    (si : list byte -> option string -> result (option (list byte)))
    (c : connection) (r : row) (w : world) (answer : option (list byte))
    (Hlookup : fetch_icon si c (r_url r) w = (w, Ok answer)) :
  let out := emit home xdg si true (Some c) r w in
  match answer with
  | Some (b :: data) =>
      (forall e, (cache_icon home xdg (b :: data) w).2 = Raise e ->
         out.2 = Raise e /\ stdout out.1 = stdout w)
      /\ (cache_ready home xdg w -> slot_fits home xdg (b :: data) w ->
          out.2 = Ok tt
          /\ stdout out.1
             = stdout w ++ [format_line r (Some (slot home xdg (b :: data)))]
          /\ fs out.1 !! slot home xdg (b :: data) = Some (File (b :: data)))
  | _ => out = print (format_line r None) w
  end.
Proof.
  cbv zeta. set (out := emit home xdg si true (Some c) r w).
  assert (Hout : out = emit home xdg si true (Some c) r w) by reflexivity.
  clearbody out. unfold emit in Hout. rewrite bind_unfold in Hout.
  unfold try_except in Hout. rewrite Hlookup in Hout.
  destruct answer as [[|b data]|]; try exact Hout.
  rewrite bind_unfold in Hout.
  pose proof (silent_cache_icon home xdg (b :: data) w) as Hsilent.
  split.
  - intros e He. destruct (cache_icon home xdg (b :: data) w) as [w1 res].
    cbn [fst snd] in *. subst res out. now split.
  - intros Hready Hfits.
    destruct (cache_icon_first _ _ _ _ Hready Hfits) as (w1 & E & _ & Hfile).
    rewrite E in Hout, Hsilent. cbn [fst snd] in *. subst out.
    cbn [print fst snd stdout fs]. now rewrite Hsilent.
Qed.

Lemma emit_with_icon_witness :
  let out := emit (Root "/home/u") None (fun _ _ => Ok (Some [x41]))
               true (Some icon_conn) site_row icon_world in
  (forall e, (cache_icon (Root "/home/u") None [x41] icon_world).2 = Raise e ->
     out.2 = Raise e /\ stdout out.1 = stdout icon_world)
  /\ (cache_ready (Root "/home/u") None icon_world ->
      slot_fits (Root "/home/u") None [x41] icon_world ->
      out.2 = Ok tt
      /\ stdout out.1
         = stdout icon_world
           ++ [format_line site_row (Some (slot (Root "/home/u") None [x41]))]
      /\ fs out.1 !! slot (Root "/home/u") None [x41] = Some (File [x41])).
Proof.
  apply (emit_with_icon (Root "/home/u") None (fun _ _ => Ok (Some [x41]))
           icon_conn site_row icon_world (Some [x41])).
  vm_compute. reflexivity.
Defined.

(** ** A row that raises *)

Lemma for_each_app {A} (l1 l2 : list A) (f : A -> io unit) w :
  for_each (l1 ++ l2) f w = (for_each l1 f ≫= fun _ => for_each l2 f) w.
Proof.
  revert w. induction l1 as [|x l1 IH]; intros w; [reflexivity|].
  cbn [app for_each]. rewrite !bind_unfold.
  destruct (f x w) as [w' [[]| |]]; [|reflexivity..].
  now rewrite IH, bind_unfold.
Qed.

(** The example's rows, then a bookmark without a title and one more
    bookmark after it. *)
Definition untitled_row : row :=
  {| r_id := 101; r_parent := 10; r_type := 1; r_title := None;
     r_url := Some "https://example.org" |}.

Definition later_row : row :=
  {| r_id := 102; r_parent := 10; r_type := 1; r_title := Some "Later";
     r_url := Some "https://example.net" |}.

(** The loop over the rows has no handler of its own: the first bookmark row
    on which the filter raises ends the listing with that exception.  The
    lines of the accepted bookmarks before it have been printed, the rows
    after it are never looked at, and the files are as they were.  (Shown
    here for a profile without favicons database.) *)
Theorem listing_stops_at_error (home : path)
    (XDG_CACHE_HOME : option string) (tmpdir : path)
    (select_bookmarks : list byte -> result (list row))
    (select_icon : list byte -> option string -> result (option (list byte)))
    (profile_loc : path) (search_path : list string) (sep : string)
    (w : world) (data : list byte) (pre post : list row) (r : row) (e : exn)
    (Hplaces : fs w !! (profile_loc // "places.sqlite") = Some (File data))
    (Hrows : select_bookmarks data = Ok (pre ++ r :: post))
    (Hfavicons : fs w !! (profile_loc // "favicons.sqlite") = None)
    (Hpre : Forall (fun q => r_type q = 1 ->
              exists b, accepts (by_id_of (pre ++ r :: post)) search_path sep q
                        = Ok b) pre)
    (Htype : r_type r = 1)
    (Hraise : accepts (by_id_of (pre ++ r :: post)) search_path sep r
              = Raise e) :
  let out := write_rofi_input home XDG_CACHE_HOME tmpdir select_bookmarks
               select_icon profile_loc search_path sep w in
  out.2 = Raise e
  /\ stdout out.1
     = stdout w
       ++ ((fun q => format_line q None)
           <$> List.filter
                 (shown (by_id_of (pre ++ r :: post)) search_path sep) pre)
  /\ fs out.1 = fs w.
Proof.
  cbv zeta. unfold write_rofi_input. rewrite bind_path_exists.
  rewrite Hplaces, bool_decide_eq_true_2 by eauto. cbn [negb].
  rewrite bind_unfold.
  destruct (temp_sqlite_fetch_ok tmpdir _ _ _ _ _ Hplaces Hrows)
    as (w1 & -> & Hfs & Hout).
  rewrite bind_path_exists, Hfs, Hfavicons.
  rewrite bool_decide_eq_false_2 by (now intros [? ?]).
  rewrite for_each_app, bind_unfold.
  destruct (for_each_plain home XDG_CACHE_HOME select_icon _ _ _ _ Hpre w1)
    as (E1 & E2 & E3). cbv zeta in *.
  destruct (for_each pre _ w1) as [w2 res]. cbn [fst snd] in *. subst res.
  assert (Hstep : write_row home XDG_CACHE_HOME select_icon
            (by_id_of (pre ++ r :: post)) false None search_path sep r w2
          = (w2, Raise e)).
  { unfold write_row. rewrite Htype. cbn [Z.eqb Pos.eqb].
    now rewrite bind_unfold, Hraise. }
  cbn [for_each]. rewrite bind_unfold, Hstep. cbn [fst snd].
  now rewrite E2, E3, Hfs, Hout.
Qed.

Lemma listing_stops_at_error_witness :
  let out := write_rofi_input (Root "/home/u") None (Root "/tmp")
               (fun _ => Ok (example_rows ++ untitled_row :: [later_row]))
               (fun _ _ => Ok None) example_profile [] " / " example_world in
  out.2 = Raise TypeError
  /\ stdout out.1
     = stdout example_world
       ++ ((fun q => format_line q None)
           <$> List.filter
                 (shown (by_id_of (example_rows ++ untitled_row :: [later_row]))
                    [] " / ") example_rows)
  /\ fs out.1 = fs example_world.
Proof.
  apply (listing_stops_at_error (Root "/home/u") None (Root "/tmp")
           (fun _ => Ok (example_rows ++ untitled_row :: [later_row]))
           (fun _ _ => Ok None) example_profile [] " / " example_world
           [x53; x51; x4c] example_rows [later_row] untitled_row TypeError).
  - vm_compute. reflexivity.
  - reflexivity.
  - vm_compute. reflexivity.
  - repeat (constructor;
              [intros H; first [discriminate H | (vm_compute; eauto)]|]).
    constructor.
  - reflexivity.
  - vm_compute. reflexivity.
Defined.

(** ** A bookmark without title *)

(** The bookmark of [untitled_row] with the empty string for a title. *)
Definition empty_title_row : row :=
  {| r_id := 101; r_parent := 10; r_type := 1; r_title := Some "";
     r_url := Some "https://example.org" |}.

(** The listing of the example profile when the query answers [rows], with
    the empty search path. *)
Definition listing_of (rows : list row) : world * result unit :=
  write_rofi_input (Root "/home/u") None (Root "/tmp") (fun _ => Ok rows)
    (fun _ _ => Ok None) example_profile [] " / " example_world.

(** C8, at the failing input: the bookmark in the folder "Work" whose title
    is NULL passes the filter of the empty search path, and its display name
    would be the placeholder; but [sep.join] meets the missing title first
    and raises [TypeError], so no line is printed for it and the listing
    ends there, after the line of the bookmark before it.  With the empty
    string for a title the same bookmark is printed with the placeholder. *)
Lemma untitled_bookmark_gets_no_line :
  r_title untitled_row = None
  /\ display_name (r_title untitled_row) = "Untitled Bookmark"
  /\ path_arr (by_id_of (example_rows ++ [untitled_row])) (r_id untitled_row)
     = Ok [Some "Work"; None]
  /\ all_match [] [Some "Work"; None] = Ok (true, [Some "Work"; None])
  /\ join " / " [Some "Work"; None] = Raise TypeError
  /\ accepts (by_id_of (example_rows ++ [untitled_row])) [] " / " untitled_row
     = Raise TypeError
  /\ (listing_of (example_rows ++ [untitled_row])).2 = Raise TypeError
  /\ stdout (listing_of (example_rows ++ [untitled_row])).1
     = ["Site" +:+ NUL +:+ "info" +:+ US +:+ "https://example.com"]
  /\ (listing_of (example_rows ++ [empty_title_row])).2 = Ok tt
  /\ stdout (listing_of (example_rows ++ [empty_title_row])).1
     = ["Site" +:+ NUL +:+ "info" +:+ US +:+ "https://example.com";
        "Untitled Bookmark" +:+ NUL +:+ "info" +:+ US +:+ "https://example.org"].
Proof.
  split; [reflexivity|]. split; [reflexivity|].
  split; [vm_compute; reflexivity|].
  split; [reflexivity|]. split; [reflexivity|].
  split; [vm_compute; reflexivity|].
  repeat split; vm_compute; reflexivity.
Qed.

(** ** Connections *)

(** [same_conns c]: [c] opens and closes nothing. *)
Definition same_conns {A} (c : io A) : Prop :=
  forall w, open_conns (c w).1 = open_conns w.

(** [releases c]: when [c] leaves, with a value or an exception, every
    connection that is open was open before. *)
Definition releases {A} (c : io A) : Prop :=
  forall w, (c w).2 <> Diverge -> open_conns (c w).1 ⊆ open_conns w.

Lemma same_conns_bind {A B} (c : io A) (k : A -> io B) :
  same_conns c -> (forall a, same_conns (k a)) -> same_conns (c ≫= k).
Proof.
  intros Hc Hk w. rewrite bind_unfold. specialize (Hc w).
  destruct (c w) as [w' [a| |]]; cbn [fst snd] in *; auto.
  now rewrite Hk.
Qed.

Lemma same_conns_mret {A} (a : A) : same_conns (mret a).
Proof. now intros w. Qed.

Lemma same_conns_lift {A} (r : result A) : same_conns (lift r).
Proof. now intros w. Qed.

Lemma same_conns_print s : same_conns (print s).
Proof. now intros w. Qed.

Lemma same_conns_path_exists p : same_conns (path_exists p).
Proof. now intros w. Qed.

Lemma same_conns_mkdir p : same_conns (mkdir p).
Proof.
  intros w. unfold mkdir. destruct (fs w !! p); [reflexivity|].
  now destruct (fs w !! parent p) as [[]|].
Qed.

Lemma same_conns_write_bytes p data : same_conns (write_bytes p data).
Proof.
  intros w. unfold write_bytes.
  destruct (fs w !! parent p) as [[]|]; [|reflexivity..].
  now destruct (fs w !! p) as [[]|].
Qed.

Lemma same_conns_cache_icon home xdg icon :
  same_conns (cache_icon home xdg icon).
Proof.
  unfold cache_icon.
  apply same_conns_bind; [apply same_conns_path_exists|]. intros there.
  apply same_conns_bind.
  { destruct there; [apply same_conns_mret|apply same_conns_mkdir]. }
  intros _. apply same_conns_bind; [apply same_conns_path_exists|].
  intros present. apply same_conns_bind; [|intros _; apply same_conns_mret].
  destruct present; [apply same_conns_mret|apply same_conns_write_bytes].
Qed.

Lemma same_conns_for_each {A} (l : list A) (f : A -> io unit) :
  (forall x, same_conns (f x)) -> same_conns (for_each l f).
Proof.
  intros H. induction l as [|x l IH]; [apply same_conns_mret|].
  cbn [for_each]. apply same_conns_bind; [apply H|]. now intros _.
Qed.

Lemma same_conns_write_row home xdg si m fa fav sp sep r :
  same_conns (write_row home xdg si m fa fav sp sep r).
Proof.
  unfold write_row. destruct (r_type r =? 1); [|apply same_conns_mret].
  apply same_conns_bind; [apply same_conns_lift|].
  intros []; [|apply same_conns_mret].
  unfold emit. apply same_conns_bind.
  - destruct fav as [c|]; [|apply same_conns_mret].
    destruct fa; [|apply same_conns_mret].
    intros w. unfold try_except.
    pose proof (fetch_icon_same si c (r_url r) w) as H.
    destruct (fetch_icon si c (r_url r) w) as [w' [a|e|]];
      cbn [fst] in *; now subst.
  - intros [[|b data]|]; try apply same_conns_print.
    apply same_conns_bind; [apply same_conns_cache_icon|].
    intros loc. apply same_conns_print.
Qed.

Lemma same_conns_fetch_bookmarks sb c : same_conns (fetch_bookmarks sb c).
Proof.
  apply same_conns_bind; [|intros data; apply same_conns_lift].
  intros w. now rewrite database_content_same.
Qed.

Lemma same_conns_releases {A} (c : io A) : same_conns c -> releases c.
Proof. intros H w _. now rewrite H. Qed.

Lemma releases_bind {A B} (c : io A) (k : A -> io B) :
  releases c -> (forall a, releases (k a)) -> releases (c ≫= k).
Proof.
  intros Hc Hk w. rewrite bind_unfold. specialize (Hc w).
  destruct (c w) as [w' [a| |]]; cbn [fst snd] in *; auto.
  intros H. etransitivity; [now apply Hk|]. now apply Hc.
Qed.

Lemma releases_temp_sqlite {A} tmpdir src (body : connection -> io A) :
  (forall c, same_conns (body c)) -> releases (temp_sqlite tmpdir src body).
Proof.
  intros H w. unfold temp_sqlite, with_NamedTemporaryFile, copyfile, connect,
    with_closing.
  io_simpl. case_decide; [cbn; set_solver|].
  cbn [fs set_fs].
  destruct (_ !! src) as [[|data]|]; [cbn; set_solver| |cbn; set_solver].
  match goal with |- context [body ?c ?w1] =>
    pose proof (H c w1) as Hb; destruct (body c w1) as [w2 [a|e|]] end;
    cbn [fst snd open_conns set_fs close] in *;
    [rewrite Hb; set_solver..|congruence].
Qed.

(** When the listing leaves, with its value or with an exception, every
    connection that is open was open before: the snapshots of both databases
    have been closed again. *)
Theorem write_rofi_input_releases (home : path)
    (XDG_CACHE_HOME : option string) (tmpdir : path)
    (select_bookmarks : list byte -> result (list row))
    (select_icon : list byte -> option string -> result (option (list byte)))
    (profile_loc : path) (search_path : list string) (sep : string)
    (w : world)
    (Hleaves : (write_rofi_input home XDG_CACHE_HOME tmpdir select_bookmarks
                  select_icon profile_loc search_path sep w).2 <> Diverge) :
  open_conns (write_rofi_input home XDG_CACHE_HOME tmpdir select_bookmarks
                select_icon profile_loc search_path sep w).1
  ⊆ open_conns w.
Proof.
  revert w Hleaves. change (releases (write_rofi_input home XDG_CACHE_HOME
    tmpdir select_bookmarks select_icon profile_loc search_path sep)).
  unfold write_rofi_input.
  apply releases_bind; [apply same_conns_releases, same_conns_path_exists|].
  intros []; cbn [negb]; [|now apply same_conns_releases].
  apply releases_bind.
  { apply releases_temp_sqlite, same_conns_fetch_bookmarks. }
  intros rows.
  apply releases_bind; [apply same_conns_releases, same_conns_path_exists|].
  intros [].
  - apply releases_temp_sqlite. intros c. apply same_conns_for_each.
    intros r. apply same_conns_write_row.
  - apply same_conns_releases, same_conns_for_each.
    intros r. apply same_conns_write_row.
Qed.

Lemma write_rofi_input_releases_witness :
  open_conns (example_listing ["Work"]).1 ⊆ open_conns example_world.
Proof.
  apply (write_rofi_input_releases (Root "/home/u") None (Root "/tmp")
           (fun _ => Ok example_rows) (fun _ _ => Ok None) example_profile
           ["Work"] " / " example_world).
  vm_compute. discriminate.
Defined.

(** ** The name of a cached icon *)

Definition hex_digits : list ascii := list_ascii_of_string "0123456789abcdef".

Lemma hex_digit_in d : 0 <= d < 16 -> In (SHA256.hex_digit d) hex_digits.
Proof.
  intros H.
  assert (Hd : d = 0 \/ d = 1 \/ d = 2 \/ d = 3 \/ d = 4 \/ d = 5 \/ d = 6
               \/ d = 7 \/ d = 8 \/ d = 9 \/ d = 10 \/ d = 11 \/ d = 12
               \/ d = 13 \/ d = 14 \/ d = 15) by lia.
  repeat (destruct Hd as [->|Hd]; [vm_compute; tauto|]).
  subst. vm_compute. tauto.
Qed.

Lemma hex_word_chars x :
  String.length (SHA256.hex_word x) = 8%nat
  /\ Forall (fun c => In c hex_digits) (list_ascii_of_string (SHA256.hex_word x)).
Proof.
  unfold SHA256.hex_word. cbn [seq rev app fold_right].
  split; [cbn [String.length]; reflexivity|].
  cbn [list_ascii_of_string].
  repeat (constructor; [apply hex_digit_in, Z.mod_pos_bound; lia|]).
  constructor.
Qed.

Lemma length_append (a b : string) :
  String.length (a +:+ b) = (String.length a + String.length b)%nat.
Proof.
  induction a as [|c a IH]; [reflexivity|].
  rewrite append_cons. cbn. now rewrite IH.
Qed.

Lemma chars_append (a b : string) :
  list_ascii_of_string (a +:+ b)
  = list_ascii_of_string a ++ list_ascii_of_string b.
Proof.
  induction a as [|c a IH]; [reflexivity|].
  rewrite append_cons. cbn. now rewrite IH.
Qed.

Lemma round_length st kw : length (SHA256.round st kw) = length st.
Proof.
  unfold SHA256.round.
  repeat (destruct st as [|? st]; try reflexivity).
Qed.

Lemma rounds_length l : forall st,
  length (fold_left SHA256.round l st) = length st.
Proof.
  induction l as [|kw l IH]; intros st; [reflexivity|].
  cbn [fold_left]. now rewrite IH, round_length.
Qed.

Lemma compress_length h block : length (SHA256.compress h block) = length h.
Proof.
  unfold SHA256.compress.
  rewrite List.length_map, List.length_combine, rounds_length. lia.
Qed.

Lemma digest_words_length msg : length (SHA256.digest_words msg) = 8%nat.
Proof.
  unfold SHA256.digest_words.
  generalize (SHA256.blocks
    (length (SHA256.be_words (length (SHA256.pad msg)) (SHA256.pad msg)))
    (SHA256.be_words (length (SHA256.pad msg)) (SHA256.pad msg))).
  intros bs.
  assert (H : forall h, length (fold_left SHA256.compress bs h) = length h).
  { induction bs as [|b bs IH]; intros h; [reflexivity|].
    cbn [fold_left]. now rewrite IH, compress_length. }
  now rewrite H.
Qed.

Lemma contains_char c s :
  PyStr.contains (String c "") s = true -> In c (list_ascii_of_string s).
Proof.
  induction s as [|x s IH]; [discriminate|].
  cbn [PyStr.contains PyStr.startswith list_ascii_of_string].
  destruct (Ascii.eqb_spec c x) as [->|_]; [now left|].
  cbn [andb orb]. intros H. right. now apply IH.
Qed.

(** The name under which an icon is cached is always 64 characters long and
    made of the digits [0-9a-f] only; so it is not empty and holds no slash,
    and the cached file is an entry of the cache directory itself. *)
Theorem cache_file_name_is_hex (home : path) (xdg : option string)
    (icon : list byte) :
  let file_name := SHA256.hexdigest icon in
  String.length file_name = 64%nat
  /\ Forall (fun c => In c hex_digits) (list_ascii_of_string file_name)
  /\ segment file_name
  /\ file_name <> ""
  /\ slot home xdg icon = cache_dir home xdg // file_name
  /\ child_of (cache_dir home xdg) (slot home xdg icon).
Proof.
  cbv zeta. unfold SHA256.hexdigest.
  pose proof (digest_words_length (List.map SHA256.byte_value icon)) as Hlen.
  set (ws := SHA256.digest_words _) in *.
  assert (H : forall l : list Z,
    String.length (fold_right (fun w s => (SHA256.hex_word w ++ s)%string) "" l)
    = (8 * length l)%nat
    /\ Forall (fun c => In c hex_digits)
         (list_ascii_of_string
            (fold_right (fun w s => (SHA256.hex_word w ++ s)%string) "" l))).
  { induction l as [|x l [IH1 IH2]]; [split; [reflexivity|constructor]|].
    cbn [fold_right length].
    destruct (hex_word_chars x) as [Hx1 Hx2]. split.
    - rewrite length_append, Hx1, IH1. lia.
    - rewrite chars_append. now apply Forall_app. }
  destruct (H ws) as [H1 H2]. rewrite Hlen in H1.
  split; [exact H1|]. split; [exact H2|]. split; [|split; [|split]].
  - unfold segment.
    destruct (PyStr.contains "/" _) eqn:E; [|reflexivity].
    apply contains_char in E. rewrite Forall_forall in H2.
    specialize (H2 _ (proj2 (list_elem_of_In _ _) E)).
    vm_compute in H2. clear -H2.
    repeat (destruct H2 as [H2|H2]; [discriminate|]). destruct H2.
  - intros E. rewrite E in H1. discriminate.
  - reflexivity.
  - now eexists.
Qed.

(** ** An empty profile name *)

Lemma find_none_all {A} (f : A -> bool) (l : list A) :
  Forall (fun x => f x = false) l -> List.find f l = None.
Proof.
  induction 1 as [|x l Hx _ IH]; [reflexivity|].
  cbn. now rewrite Hx.
Qed.

(** The empty string is contained in every name, so a profile argument that
    is empty selects the first discovered profile directory, whatever it is
    called, and [profiles.ini] is never consulted; only when no directory
    was discovered does the lookup go on to [profiles.ini]. *)
Theorem path_from_name_empty_query (home : path)
    (unicode_lower : string -> string) (listing : list entry)
    (registry : option (list section)) (p : entry) (rest : list entry)
    (Hdirs : find_profile_directories listing = p :: rest)
    (Hnames : Forall (fun q => name q <> "") (p :: rest)) :
  path_from_name home unicode_lower listing registry ""
  = Ok (profile_path home p)
  /\ path_from_name home unicode_lower listing None ""
     = path_from_name home unicode_lower listing registry ""
  /\ path_from_name home unicode_lower [] registry ""
     = match registry ≫= registry_lookup home "" with
       | Some q => Ok q
       | None => Raise (Exception "No profile with name '' found")
       end.
Proof.
  assert (H : forall reg, path_from_name home unicode_lower listing reg ""
                          = Ok (profile_path home p)).
  { intros reg. unfold path_from_name. rewrite Hdirs.
    rewrite find_none_all.
    - cbn [List.find]. unfold named_like at 1.
      change (py_lower unicode_lower "") with "".
      now destruct (py_lower unicode_lower (name p)).
    - eapply Forall_impl; [exact Hnames|]. intros q Hq.
      unfold named_exactly. now apply String.eqb_neq. }
  split; [apply H|]. split; [now rewrite !H|reflexivity].
Qed.

Lemma path_from_name_empty_query_witness :
  path_from_name (Root "/home/u") (fun s => s) [test_profile; work_profile]
    None ""
  = Ok (profile_path (Root "/home/u") test_profile)
  /\ path_from_name (Root "/home/u") (fun s => s)
       [test_profile; work_profile] None ""
     = path_from_name (Root "/home/u") (fun s => s)
         [test_profile; work_profile] None ""
  /\ path_from_name (Root "/home/u") (fun s => s) [] None ""
     = match None ≫= registry_lookup (Root "/home/u") "" with
       | Some q => Ok q
       | None => Raise (Exception "No profile with name '' found")
       end.
Proof.
  apply (path_from_name_empty_query (Root "/home/u") (fun s => s)
           [test_profile; work_profile] None test_profile [work_profile]).
  - reflexivity.
  - repeat constructor; discriminate.
Defined.
